(** * aws-s3-cli: a shallow embedding of [src/aws-s3-cli.ts]

    The program is a thin command-line shell around an object-storage SDK.
    This development embeds, in order of appearance below,

    - the JavaScript string and number primitives the source relies on
      ([toLowerCase], [indexOf], [toFixed], number-to-string conversion);
    - Node's POSIX [path.basename] and [path.extname];
    - the two formatting helpers [formatBytes] and [getContentType];
    - the environment loader that runs at module load time;
    - the eight operation handlers, as computations that emit a trace of
      observable events (console output, SDK calls, file-system accesses);
    - the yargs command table and its dispatch/validation contract.

    JavaScript strings are modelled as Rocq [string]s (sequences of 8-bit
    code units), JavaScript integers as [Z], [undefined] as [None]. *)

From Stdlib Require Import ZArith String Ascii List Lia.
From stdpp Require Import base option list gmap strings.

Local Open Scope Z_scope.

(** ** JavaScript primitives *)

Module Js.

(** [a || b] on possibly-undefined strings: the empty string and
    [undefined] are the two falsy values a string option can take. *)
Definition truthy (o : option string) : bool :=
  match o with
  | None => false
  | Some s => negb (String.eqb s "")
  end.

Definition or_else (o : option string) (d : string) : string :=
  match o with
  | Some s => if String.eqb s "" then d else s
  | None => d
  end.

(** Template-literal interpolation [`${x}`] of a possibly-undefined string. *)
Definition show (o : option string) : string := default "undefined" o.

(** [String.prototype.toLowerCase] on the code units [A]..[Z]; every other
    code unit is left alone. *)
Definition lower_char (c : ascii) : ascii :=
  let n := nat_of_ascii c in
  if ((65 <=? n)%nat && (n <=? 90)%nat)%bool then ascii_of_nat (n + 32) else c.

Definition toLowerCase (s : string) : string :=
  string_of_list_ascii (map lower_char (list_ascii_of_string s)).

(** [String.prototype.slice(start, end)] for [0 <= start]. *)
Definition slice_chars (cs : list ascii) (start stop : Z) : list ascii :=
  take (Z.to_nat (stop - start)) (drop (Z.to_nat start) cs).

(** [Array.prototype.indexOf]: first index holding [x], or [-1]. *)
Fixpoint indexOf_from (i : Z) (l : list string) (x : string) : Z :=
  match l with
  | [] => -1
  | y :: l' => if String.eqb y x then i else indexOf_from (i + 1) l' x
  end.

Definition indexOf (l : list string) (x : string) : Z := indexOf_from 0 l x.

(** [Array.prototype.includes]. *)
Definition includes (l : list string) (x : string) : bool :=
  existsb (fun y => String.eqb y x) l.

(** [arr[i]] for an integer index: [undefined] out of range. *)
Definition index {A} (l : list A) (i : Z) : option A :=
  if i <? 0 then None else l !! Z.to_nat i.

(** Decimal rendering of a non-negative integer. *)
Definition digit_char (d : Z) : ascii := ascii_of_nat (48 + Z.to_nat d).

Fixpoint decimal_digits (fuel : nat) (n : Z) (acc : list ascii) : list ascii :=
  let acc' := digit_char (n mod 10) :: acc in
  match fuel with
  | O => acc'
  | S f => if n <? 10 then acc' else decimal_digits f (n / 10) acc'
  end.

Definition int_chars (n : Z) : list ascii :=
  decimal_digits (Z.to_nat (Z.log2 n)) n [].

Definition int_to_string (n : Z) : string := string_of_list_ascii (int_chars n).

(** The [dm] fractional digits of the fixed-point number [n / 10^dm], most
    significant first. *)
Fixpoint frac_chars (dm : nat) (r : Z) : list ascii :=
  match dm with
  | O => []
  | S d => frac_chars d (r / 10) ++ [digit_char (r mod 10)]
  end.

Definition is_zero_char (c : ascii) : bool := Ascii.eqb c "0".

Fixpoint drop_zeros (l : list ascii) : list ascii :=
  match l with
  | [] => []
  | c :: l' => if is_zero_char c then drop_zeros l' else l
  end.

Definition strip_trailing_zeros (l : list ascii) : list ascii :=
  reverse (drop_zeros (reverse l)).

(** [Number.prototype.toFixed(dm)] applied to the exact quotient
    [num / den] ([0 <= num], [0 < den]): the integer [n] for which
    [n / 10^dm - num / den] is as close to zero as possible, the larger
    one when there are two. *)
Definition toFixed_units (num den dm : Z) : Z :=
  (2 * num * 10 ^ dm + den) / (2 * den).

(** [parseFloat(x.toFixed(dm)) + ""]: the fixed-point number [n / 10^dm]
    printed without trailing fractional zeros. *)
Definition fixed_chars (n dm : Z) : list ascii :=
  let ip := n / 10 ^ dm in
  let fr := strip_trailing_zeros (frac_chars (Z.to_nat dm) (n mod 10 ^ dm)) in
  match fr with
  | [] => int_chars ip
  | _ => int_chars ip ++ "."%char :: fr
  end.

Definition fixed_to_string (n dm : Z) : string :=
  string_of_list_ascii (fixed_chars n dm).

End Js.

(** ** Node's [path] module (POSIX flavour) *)

Module Path.

Definition is_slash (c : ascii) : bool := Ascii.eqb c "/".
Definition is_dot (c : ascii) : bool := Ascii.eqb c ".".

(** The characters of a path paired with their indices, last one first: the
    order in which both scanning loops visit them
    ([for (let i = path.length - 1; i >= 0; --i)]). *)
Definition indexed_desc (cs : list ascii) : list (Z * ascii) :=
  reverse (imap (fun i c => (Z.of_nat i, c)) cs).

(** *** [path.basename(path)] *)

Record BaseState := mkBase {
  b_start : Z;
  b_end : Z;
  b_matchedSlash : bool
}.

Definition base_init : BaseState := mkBase 0 (-1) true.

Fixpoint basename_loop (cs : list (Z * ascii)) (st : BaseState) : BaseState :=
  match cs with
  | [] => st
  | (i, c) :: rest =>
      if is_slash c then
        if negb (b_matchedSlash st)
        then mkBase (i + 1) (b_end st) (b_matchedSlash st)  (* break *)
        else basename_loop rest st
      else if b_end st =? -1
        then basename_loop rest (mkBase (b_start st) (i + 1) false)
        else basename_loop rest st
  end.

Definition basename_chars (cs : list ascii) : list ascii :=
  let st := basename_loop (indexed_desc cs) base_init in
  if b_end st =? -1 then [] else Js.slice_chars cs (b_start st) (b_end st).

Definition basename (path : string) : string :=
  string_of_list_ascii (basename_chars (list_ascii_of_string path)).

(** *** [path.extname(path)] *)

Record ExtState := mkExt {
  e_startDot : Z;
  e_startPart : Z;
  e_end : Z;
  e_matchedSlash : bool;
  e_preDotState : Z
}.

Definition ext_init : ExtState := mkExt (-1) 0 (-1) true 0.

(** The body of the loop for a character that is not a separator. *)
Definition ext_step (i : Z) (dot : bool) (st : ExtState) : ExtState :=
  let st1 :=
    if e_end st =? -1
    then mkExt (e_startDot st) (e_startPart st) (i + 1) false (e_preDotState st)
    else st in
  if dot then
    if e_startDot st1 =? -1
    then mkExt i (e_startPart st1) (e_end st1) (e_matchedSlash st1) (e_preDotState st1)
    else if negb (e_preDotState st1 =? 1)
    then mkExt (e_startDot st1) (e_startPart st1) (e_end st1) (e_matchedSlash st1) 1
    else st1
  else if negb (e_startDot st1 =? -1)
    then mkExt (e_startDot st1) (e_startPart st1) (e_end st1) (e_matchedSlash st1) (-1)
    else st1.

Fixpoint extname_loop (cs : list (Z * ascii)) (st : ExtState) : ExtState :=
  match cs with
  | [] => st
  | (i, c) :: rest =>
      if is_slash c then
        if negb (e_matchedSlash st)
        then mkExt (e_startDot st) (i + 1) (e_end st) (e_matchedSlash st)
                   (e_preDotState st)                        (* break *)
        else extname_loop rest st                            (* continue *)
      else extname_loop rest (ext_step i (is_dot c) st)
  end.

(** The condition under which [extname] answers the empty string. *)
Definition ext_none (st : ExtState) : bool :=
  (e_startDot st =? -1) || (e_end st =? -1) || (e_preDotState st =? 0)
  || ((e_preDotState st =? 1)
      && (e_startDot st =? e_end st - 1)
      && (e_startDot st =? e_startPart st + 1)).

Definition ext_scan (cs : list ascii) : ExtState :=
  extname_loop (indexed_desc cs) ext_init.

Definition extname_chars (cs : list ascii) : list ascii :=
  let st := ext_scan cs in
  if ext_none st then [] else Js.slice_chars cs (e_startDot st) (e_end st).

Definition extname (path : string) : string :=
  string_of_list_ascii (extname_chars (list_ascii_of_string path)).

End Path.

(** ** Formatting helpers *)

Definition sizes : list string :=
  ["Bytes"; "KB"; "MB"; "GB"; "TB"; "PB"; "EB"; "ZB"; "YB"].

(** [Math.floor(Math.log(bytes) / Math.log(k))] for [bytes >= 1] and
    [k >= 2], evaluated in exact arithmetic: the number of times [bytes] can
    be divided by [k] before it drops below [k].  The program computes the
    quotient in IEEE-754 doubles, with the logarithm of its engine (V8's,
    a port of fdlibm).  For [k = 1024] the two agree on every integer count
    below [2^49] and on every whole multiple [m * 1024^i] ([1 <= m < 1024],
    [i <= 8]): there the quotient of the doubles is the exact integer, or
    lies further from the next integer than the rounding error.  Just below
    a power of 1024, from [1024^5] on, the quotient of the doubles rounds up
    to that power's exponent (at [1024^5 - 1] the program takes index 5,
    this function 4): what is stated about the unit of a general count is
    stated below [2^49] only.  From [1024^9] on both indices lie outside the
    unit table.
    [bytes / Math.pow(k, i)] and [toFixed] are exact on doubles for integer
    byte counts below [2^53]. *)
Fixpoint floor_log_fuel (fuel : nat) (k b : Z) : Z :=
  match fuel with
  | O => 0
  | S f => if b <? k then 0 else 1 + floor_log_fuel f k (b / k)
  end.

Definition floor_log (k b : Z) : Z := floor_log_fuel (Z.to_nat (Z.log2 b)) k b.

(** [formatBytes(bytes, decimals = 2)], with the unit index in exact
    arithmetic (see [floor_log] for where that is the index of the
    program).  A negative count makes [Math.log] answer [NaN], which
    propagates to both halves of the result. The rendering of the number is
    exact for the default [decimals] (and up to 11 of them, where the
    decimal still round-trips through a double). *)
Definition formatBytes (bytes decimals : Z) : string :=
  if bytes =? 0 then "0 Bytes"
  else if bytes <? 0 then "NaN undefined"
  else
    let k := 1024 in
    let dm := if decimals <? 0 then 0 else decimals in
    let i := floor_log k bytes in
    Js.fixed_to_string (Js.toFixed_units bytes (k ^ i) dm) dm
      +:+ " " +:+ Js.show (Js.index sizes i).

Definition default_decimals : Z := 2.

Definition contentTypes_entries : list (string * string) :=
  [ (".html", "text/html");
    (".css", "text/css");
    (".js", "application/javascript");
    (".json", "application/json");
    (".png", "image/png");
    (".jpg", "image/jpeg");
    (".jpeg", "image/jpeg");
    (".gif", "image/gif");
    (".svg", "image/svg+xml");
    (".txt", "text/plain");
    (".pdf", "application/pdf") ].

Definition contentTypes : gmap string string := list_to_map contentTypes_entries.

Definition getContentType (filePath : string) : string :=
  let ext := Js.toLowerCase (Path.extname filePath) in
  Js.or_else (contentTypes !! ext) "application/octet-stream".

(** ** Environment loading (the statements run at module load time) *)

Module Dotenv.

(** The options object handed to [dotenv.config]. *)
Record Options := mkOptions {
  path : option string;
  override : option bool
}.

Definition no_options : Options := mkOptions None None.

(** The contract of the dotenv package: the file at [path] (default [.env])
    is parsed into key/value pairs, and each pair is written to the process
    environment unless the key is already set there; only [override: true]
    lets the file replace a value that is already set.  A file that cannot
    be read leaves the environment as it is.  [files] maps a path to the
    parsed content of the file stored there. *)
Definition config (files : gmap string (gmap string string)) (o : Options)
    (env : gmap string string) : gmap string string :=
  match files !! default ".env" (path o) with
  | None => env
  | Some parsed =>
      match override o with
      | Some true => parsed ∪ env
      | _ => env ∪ parsed
      end
  end.

End Dotenv.

(** ** Observable behaviour of a run *)

Inductive JsError :=
| TypeError (message : string)
| Error (message : string)
| ServiceException (message : string)
| SystemError (message : string).

(** The inputs of the SDK command constructors. *)
Inductive Command :=
| ListBucketsCommand
| GetBucketLocationCommand (Bucket : option string)
| CreateBucketCommand (Bucket : option string) (LocationConstraint : option string)
| DeleteBucketCommand (Bucket : option string)
| ListObjectsV2Command (Bucket Prefix : option string)
| PutObjectCommand (Bucket : option string) (Key : string) (Body : string)
    (ContentType : string)
| GetObjectCommand (Bucket Key : option string)
| DeleteObjectCommand (Bucket Key : option string).

Inductive Event :=
| ConsoleLog (line : string)
| ConsoleError (line : string) (err : option JsError)
| Send (client_region : string) (cmd : Command)
| ReadFileSync (file_path : string)
| CreateWriteStream (file_path : string)
| PipelineDone (file_path : string) (data : string)
| ShowHelp (to_stderr : bool)
| ShowVersion.

(** What a finished process leaves behind. *)
Record Process := mkProcess {
  trace : list Event;
  exit_code : Z
}.

Record BucketInfo := mkBucket {
  bucket_Name : option string;
  bucket_CreationDate : option string
}.

Record ObjectInfo := mkObject {
  object_Key : option string;
  object_Size : option Z;
  object_LastModified : option string
}.

(** A readable response body: its content, and whether reading it fails
    midway. *)
Record Stream := mkStream {
  stream_data : string;
  stream_fails : bool
}.

(** The fields the handlers read from SDK responses; a field that a
    response does not carry reads as [undefined]. *)
Record Response := mkResponse {
  Buckets : option (list BucketInfo);
  LocationConstraint : option string;
  Contents : option (list ObjectInfo);
  Body : option Stream
}.

(** The collaborators outside the program: the storage service behind
    [client.send], and the local file system. *)
Record World := mkWorld {
  s3_send : string -> Command -> JsError + Response;
  fs_readFile : string -> option string;
  fs_writable : string -> bool
}.

(** Computations that log events and may throw. *)
Definition Eff (A : Type) : Type := (list Event * (JsError + A))%type.

#[global] Instance Eff_ret : MRet Eff := fun A a => ([], inr a).

#[global] Instance Eff_bind : MBind Eff := fun A B f m =>
  match m with
  | (t, inl e) => (t, inl e)
  | (t, inr a) => let '(t', r) := f a in (t ++ t', r)
  end.

Definition emit (e : Event) : Eff unit := ([e], inr tt).

Definition throw {A} (e : JsError) : Eff A := ([], inl e).

(** [try { body } catch (error) { console.error(prefix, error); process.exit(1); }]
    as the whole body of a handler: a handler that returns lets the process
    end with code 0. *)
Definition try_catch (prefix : string) (body : Eff unit) : Process :=
  match body with
  | (t, inr _) => mkProcess t 0
  | (t, inl e) => mkProcess (t ++ [ConsoleError prefix (Some e)]) 1
  end.

(** A Node API that validates its argument with [validateString]. *)
Definition need_string (o : option string) : Eff string :=
  match o with
  | Some s => mret s
  | None => throw (TypeError "The path argument must be of type string. Received undefined")
  end.

Definition console_log (line : string) : Eff unit := emit (ConsoleLog line).

(** [path.basename(p)] and [getContentType(p)] called on a value that may be
    [undefined]. *)
Definition path_basename (o : option string) : Eff string :=
  p ← need_string o; mret (Path.basename p).

Definition content_type_of (o : option string) : Eff string :=
  p ← need_string o; mret (getContentType p).

(** ** Handlers *)

(** The [argv] object yargs hands to a handler. [region] and [env-file]
    always carry a string because the option table gives them defaults. *)
Record Argv := mkArgv {
  argv_region : string;
  argv_env_file : string;
  argv_name : option string;
  argv_bucket : option string;
  argv_key : option string;
  argv_file : option string;
  argv_output : option string;
  argv_prefix : option string
}.

Record S3Client := mkClient { client_region : string }.

Definition getS3Client (region : string) : Eff S3Client :=
  console_log ("Creating S3 client with region: " +:+ region);;
  mret (mkClient region).

Definition send (w : World) (client : S3Client) (cmd : Command) : Eff Response :=
  ([Send (client_region client) cmd], s3_send w (client_region client) cmd).

Definition readFileSync (w : World) (p : option string) : Eff string :=
  f ← need_string p;
  emit (ReadFileSync f);;
  match fs_readFile w f with
  | Some content => mret content
  | None => throw (SystemError "ENOENT: no such file or directory")
  end.

Definition createWriteStream (p : string) : Eff string :=
  emit (CreateWriteStream p);; mret p.

(** [await pipeline(body, writeStream)]: rejects when the source fails
    midway or the destination cannot be written. *)
Definition pipeline (w : World) (body : Stream) (dest : string) : Eff unit :=
  if stream_fails body then throw (Error "stream error")
  else if fs_writable w dest then emit (PipelineDone dest (stream_data body))
  else throw (SystemError "cannot write destination").

Definition numbered (i : nat) : string := Js.int_to_string (Z.of_nat i + 1).

Definition listBuckets (w : World) (argv : Argv) : Process :=
  try_catch "Error listing buckets:" (
    console_log ("Using region parameter: " +:+ argv_region argv);;
    client ← getS3Client (argv_region argv);
    console_log "Sending ListBucketsCommand...";;
    response ← send w client ListBucketsCommand;
    console_log "NOTE: S3 ListBucketsCommand returns ALL buckets regardless of region!";;
    console_log "Listing all buckets (use get-bucket-region to check actual region):";;
    match Buckets response with
    | Some (b :: bs) =>
        ((concat (imap (fun index bucket =>
            [ConsoleLog (numbered index +:+ ". " +:+ Js.show (bucket_Name bucket)
               +:+ " (Created: " +:+ Js.show (bucket_CreationDate bucket) +:+ ")")])
          (b :: bs)), inr tt) : Eff unit)
    | _ => console_log "No buckets found."
    end).

Definition getBucketRegion (w : World) (argv : Argv) : Process :=
  try_catch ("Error getting region for bucket '" +:+ Js.show (argv_name argv) +:+ "':") (
    let client := mkClient "us-east-1" in
    console_log ("Checking region for bucket: " +:+ Js.show (argv_name argv));;
    response ← send w client (GetBucketLocationCommand (argv_name argv));
    let region := Js.or_else (LocationConstraint response) "us-east-1" in
    console_log ("Bucket '" +:+ Js.show (argv_name argv) +:+ "' is in region: " +:+ region)).

Definition createBucket (w : World) (argv : Argv) : Process :=
  try_catch "Error creating bucket:" (
    client ← getS3Client (argv_region argv);
    send w client (CreateBucketCommand (argv_name argv)
      (if negb (String.eqb (argv_region argv) "us-east-1")
       then Some (argv_region argv) else None));;
    console_log ("Bucket '" +:+ Js.show (argv_name argv)
      +:+ "' created successfully in region " +:+ argv_region argv +:+ ".")).

Definition deleteBucket (w : World) (argv : Argv) : Process :=
  try_catch "Error deleting bucket:" (
    client ← getS3Client (argv_region argv);
    send w client (DeleteBucketCommand (argv_name argv));;
    console_log ("Bucket '" +:+ Js.show (argv_name argv) +:+ "' deleted successfully.")).

Definition listFiles (w : World) (argv : Argv) : Process :=
  try_catch "Error listing objects:" (
    client ← getS3Client (argv_region argv);
    response ← send w client (ListObjectsV2Command (argv_bucket argv) (argv_prefix argv));
    console_log ("Contents of bucket '" +:+ Js.show (argv_bucket argv) +:+ "'"
      +:+ (if Js.truthy (argv_prefix argv)
           then " with prefix '" +:+ Js.show (argv_prefix argv) +:+ "'" else "")
      +:+ ":");;
    match Contents response with
    | Some (o :: os) =>
        ((concat (imap (fun index object =>
            [ConsoleLog (numbered index +:+ ". " +:+ Js.show (object_Key object)
               +:+ " (Size: "
               +:+ formatBytes (default 0 (object_Size object)) default_decimals
               +:+ ", Last Modified: " +:+ Js.show (object_LastModified object) +:+ ")")])
          (o :: os)), inr tt) : Eff unit)
    | _ => console_log "No objects found."
    end).

Definition uploadFile (w : World) (argv : Argv) : Process :=
  try_catch "Error uploading file:" (
    let filePath := argv_file argv in
    key ← (if Js.truthy (argv_key argv) then mret (Js.show (argv_key argv))
           else path_basename filePath);
    client ← getS3Client (argv_region argv);
    fileContent ← readFileSync w filePath;
    contentType ← content_type_of filePath;
    send w client (PutObjectCommand (argv_bucket argv) key fileContent contentType);;
    console_log ("File '" +:+ Js.show filePath +:+ "' uploaded successfully to '"
      +:+ Js.show (argv_bucket argv) +:+ "/" +:+ key +:+ "'.")).

Definition downloadFile (w : World) (argv : Argv) : Process :=
  try_catch "Error downloading file:" (
    client ← getS3Client (argv_region argv);
    response ← send w client (GetObjectCommand (argv_bucket argv) (argv_key argv));
    body ← match Body response with
           | None => throw (Error "Empty response body")
           | Some b => mret b
           end;
    outputPath ← (if Js.truthy (argv_output argv) then mret (Js.show (argv_output argv))
                  else path_basename (argv_key argv));
    writeStream ← createWriteStream outputPath;
    pipeline w body writeStream;;
    console_log ("File downloaded successfully to '" +:+ outputPath +:+ "'.")).

Definition deleteFile (w : World) (argv : Argv) : Process :=
  try_catch "Error deleting file:" (
    client ← getS3Client (argv_region argv);
    send w client (DeleteObjectCommand (argv_bucket argv) (argv_key argv));;
    console_log ("File '" +:+ Js.show (argv_key argv)
      +:+ "' deleted successfully from bucket '" +:+ Js.show (argv_bucket argv) +:+ "'.")).

(** ** Module load: environment files *)

(** Lines 5 and 37-44 of the source: the default [.env] is loaded first,
    then the file named after the first [--env-file] token of the raw
    argument vector, when that token is not the last one. *)
Definition load_environment (files : gmap string (gmap string string))
    (process_argv : list string) (env : gmap string string)
    : gmap string string * list Event :=
  let env1 := Dotenv.config files Dotenv.no_options env in
  if Js.includes process_argv "--env-file" then
    let envFileIndex := Js.indexOf process_argv "--env-file" in
    if (envFileIndex >? -1) && (envFileIndex <? Z.of_nat (length process_argv) - 1) then
      let envFilePath := Js.index process_argv (envFileIndex + 1) in
      (Dotenv.config files (Dotenv.mkOptions envFilePath None) env1,
       [ConsoleLog ("Loaded environment from: " +:+ Js.show envFilePath)])
    else (env1, [])
  else (env1, []).

(** ** Command dispatch *)

(** What the yargs parser extracts from the arguments after [hideBin]: the
    positional tokens ([argv._]), the string-valued options that were given,
    and whether the help or version switch was present. *)
Record Parsed := mkParsed {
  positional : list string;
  options : gmap string string;
  help : bool;
  version : bool
}.

(** One [.command(name, description, builder, handler)] registration; of the
    builder only the option keys matter, and which of them carry
    [demandOption: true]. *)
Record CommandModule := mkCommand {
  command : string;
  describe : string;
  demanded : list string;
  optional : list string;
  handler : World -> Argv -> Process
}.

Definition commands : list CommandModule :=
  [ mkCommand "list-buckets" "List all S3 buckets" [] [] listBuckets;
    mkCommand "get-bucket-region" "Get the region of a specific bucket"
      ["name"] [] getBucketRegion;
    mkCommand "create-bucket" "Create a new S3 bucket" ["name"] [] createBucket;
    mkCommand "delete-bucket" "Delete an S3 bucket" ["name"] [] deleteBucket;
    mkCommand "list-files" "List files in an S3 bucket" ["bucket"] ["prefix"] listFiles;
    mkCommand "upload-file" "Upload a file to S3" ["bucket"; "file"] ["key"] uploadFile;
    mkCommand "download-file" "Download a file from S3" ["bucket"; "key"] ["output"]
      downloadFile;
    mkCommand "delete-file" "Delete a file from S3" ["bucket"; "key"] [] deleteFile ].

(** The global options [region] and [env-file] come with defaults. *)
Definition effective_region (p : Parsed) : string :=
  default "us-east-1" (options p !! "region").

Definition parsed_argv (p : Parsed) : Argv :=
  {| argv_region := effective_region p;
     argv_env_file := default ".env" (options p !! "env-file");
     argv_name := options p !! "name";
     argv_bucket := options p !! "bucket";
     argv_key := options p !! "key";
     argv_file := options p !! "file";
     argv_output := options p !! "output";
     argv_prefix := options p !! "prefix" |}.

Definition find_command (cmd : string) : option CommandModule :=
  List.find (fun c => String.eqb (command c) cmd) commands.

(** The demanded options of a command that the invocation does not give. *)
Definition missing_options (c : CommandModule) (p : Parsed) : list string :=
  List.filter (fun k => bool_decide (options p !! k = None)) (demanded c).

(** A failed validation: yargs makes three [console.error] calls, for the
    usage text ([ShowHelp true]), for an empty line and for the message, and
    exits with code 1. *)
Definition usage_failure (message : string) : Process :=
  mkProcess [ShowHelp true; ConsoleError "" None; ConsoleError message None] 1.

Definition missing_message (ks : list string) : string :=
  (if (1 <? Z.of_nat (length ks)) then "Missing required arguments: "
   else "Missing required argument: ") +:+ String.concat ", " ks.

(** The contract of the yargs chain of lines 47-183.  The help and version
    switches print and exit with code 0 before any validation.  Otherwise
    the first positional token selects a registered command, whose demanded
    options are validated before its handler runs.  A token that names no
    registered command selects nothing: the chain has no [strict] mode, and
    [demandCommand(1, ...)] only counts the positional tokens. *)
Definition cli (w : World) (p : Parsed) : Process :=
  if help p then mkProcess [ShowHelp false] 0
  else if version p then mkProcess [ShowVersion] 0
  else
    match positional p with
    | [] => usage_failure "You need to specify a command"
    | cmd :: _ =>
        match find_command cmd with
        | Some c =>
            match missing_options c p with
            | [] => handler c w (parsed_argv p)
            | ks => usage_failure (missing_message ks)
            end
        | None => mkProcess [] 0
        end
    end.

(** The SDK calls of a run, in order. *)
Definition api_calls (t : list Event) : list (string * Command) :=
  omap (fun e => match e with Send r c => Some (r, c) | _ => None end) t.

(** The local files a run opened for writing, in order. *)
Definition opened_for_write (t : list Event) : list string :=
  omap (fun e => match e with CreateWriteStream p => Some p | _ => None end) t.

Definition is_usage_error (t : list Event) : Prop :=
  exists message, t = [ShowHelp true; ConsoleError "" None; ConsoleError message None].


(** ** Notions used to state the properties *)

(** The required options of section 6 of the specification, command by
    command. *)
Definition spec_required_options : list (string * list string) :=
  [ ("list-buckets", []);
    ("get-bucket-region", ["name"]);
    ("create-bucket", ["name"]);
    ("delete-bucket", ["name"]);
    ("list-files", ["bucket"]);
    ("upload-file", ["bucket"; "file"]);
    ("download-file", ["bucket"; "key"]);
    ("delete-file", ["bucket"; "key"]) ].

(** A world in which every request succeeds with an empty response, no
    local file can be read and every destination can be written. *)
Definition quiet_world : World :=
  mkWorld (fun _ _ => inr (mkResponse None None None None))
          (fun _ => None) (fun _ => true).

(** [u] occurs in [s] as a substring. *)
Definition occurs_in (u s : string) : Prop :=
  exists pre post, s = pre +:+ u +:+ post.

(** Unit number [i] is the largest unit of the table for which [b] scaled by
    the unit's power of 1024 is below 1024. *)
Definition largest_unit_below_1024 (b i : Z) : Prop :=
  is_Some (Js.index sizes i) /\ b < 1024 * 1024 ^ i
  /\ forall j, is_Some (Js.index sizes j) -> b < 1024 * 1024 ^ j -> j <= i.

(** A path with its extension lowercased: what precedes the extension, the
    extension ([extname] slices it from [startDot] to [end]) through
    [toLowerCase], and what follows it; a path without extension is left
    alone. *)
Definition lower_extension_chars (cs : list ascii) : list ascii :=
  let st := Path.ext_scan cs in
  if Path.ext_none st then cs
  else
    take (Z.to_nat (Path.e_startDot st)) cs
    ++ map Js.lower_char (Js.slice_chars cs (Path.e_startDot st) (Path.e_end st))
    ++ drop (Z.to_nat (Path.e_end st)) cs.

Definition lower_extension (p : string) : string :=
  string_of_list_ascii (lower_extension_chars (list_ascii_of_string p)).

(** The same path written position by position. *)
Definition lower_extension_imap (cs : list ascii) : list ascii :=
  let st := Path.ext_scan cs in
  if Path.ext_none st then cs
  else
    imap (fun i c =>
            if (Path.e_startDot st <=? Z.of_nat i) && (Z.of_nat i <? Path.e_end st)
            then Js.lower_char c else c) cs.

(** Indices below [n] in strictly descending order: the shape of the lists
    the scanning loops run over. *)
Fixpoint descending (n : Z) (l : list (Z * ascii)) : Prop :=
  match l with
  | [] => True
  | (i, _) :: rest => 0 <= i < n /\ descending i rest
  end.

(** The loop invariant of [extname] on a path of [n] code units: [end] and
    [startDot] are unset, or [startDot < end <= n]. *)
Definition ext_bounds (n : Z) (st : Path.ExtState) : Prop :=
  (Path.e_end st = -1 /\ Path.e_startDot st = -1)
  \/ (0 < Path.e_end st <= n
      /\ (Path.e_startDot st = -1
          \/ 0 <= Path.e_startDot st < Path.e_end st)).

(** Two code units that the path scanners cannot tell apart. *)
Definition same_class (c d : ascii) : Prop :=
  Path.is_slash c = Path.is_slash d /\ Path.is_dot c = Path.is_dot d.

(** The number a string of decimal digits denotes, read left to right from
    the accumulator [a]. *)
Definition digits_value (a : Z) (l : list ascii) : Z :=
  fold_left (fun a c => 10 * a + (Z.of_nat (nat_of_ascii c) - 48)) l a.

(** The code units a rendered number is made of. *)
Definition is_numeric_char (c : ascii) : bool :=
  let n := nat_of_ascii c in
  ((48 <=? n)%nat && (n <=? 57)%nat) || Ascii.eqb c ".".

(** ** Notions used to state the further properties *)

(** Events that are plain console output. *)
Definition is_log (e : Event) : Prop := exists line, e = ConsoleLog line.

(** Events written to standard error: the [console.error] calls of the
    handlers and of yargs, the usage text of a failed validation among
    them. *)
Definition on_stderr (e : Event) : Prop :=
  (exists m err, e = ConsoleError m err) \/ e = ShowHelp true.

(** The command token a request belongs to. *)
Definition command_of_request (c : Command) : string :=
  match c with
  | ListBucketsCommand => "list-buckets"
  | GetBucketLocationCommand _ => "get-bucket-region"
  | CreateBucketCommand _ _ => "create-bucket"
  | DeleteBucketCommand _ => "delete-bucket"
  | ListObjectsV2Command _ _ => "list-files"
  | PutObjectCommand _ _ _ _ => "upload-file"
  | GetObjectCommand _ _ => "download-file"
  | DeleteObjectCommand _ _ => "delete-file"
  end.

(** A process that writes to standard error exactly when it fails: it
    ends with code 0 and wrote nothing there; or it ends with code 1, and
    its trace is the three [console.error] calls of a failed validation, or
    ends with one [console.error] before which nothing went to standard
    error. *)
Definition reports_failure (P : Process) : Prop :=
  (exit_code P = 0 /\ Forall (fun e => ~ on_stderr e) (trace P))
  \/ (exit_code P = 1
      /\ (is_usage_error (trace P)
          \/ exists t m err, trace P = t ++ [ConsoleError m err]
                             /\ Forall (fun e => ~ on_stderr e) t)).

(** A world whose service rejects every request with [e]. *)
Definition failing_world (e : JsError) : World :=
  mkWorld (fun _ _ => inl e) (fun _ => None) (fun _ => true).

(** Events that complete a transfer to a local file. *)
Definition is_pipeline_done (e : Event) : Prop := exists p d, e = PipelineDone p d.

(** One printed line of list-files. *)
Definition object_line (index : nat) (o : ObjectInfo) : Event :=
  ConsoleLog (numbered index +:+ ". " +:+ Js.show (object_Key o)
    +:+ " (Size: " +:+ formatBytes (default 0 (object_Size o)) default_decimals
    +:+ ", Last Modified: " +:+ Js.show (object_LastModified o) +:+ ")").

(** The longest prefix whose elements satisfy [f], and what follows it. *)
Fixpoint take_while {A} (f : A -> bool) (l : list A) : list A :=
  match l with
  | [] => []
  | x :: l' => if f x then x :: take_while f l' else []
  end.

Fixpoint drop_while {A} (f : A -> bool) (l : list A) : list A :=
  match l with
  | [] => []
  | x :: l' => if f x then drop_while f l' else l
  end.

(** A code unit that is not a separator. *)
Definition not_slash (c : ascii) : bool := negb (Path.is_slash c).

(** The last component of a path: trailing separators dropped, then
    everything after the last remaining separator. *)
Definition last_component (cs : list ascii) : list ascii :=
  reverse (take_while not_slash (drop_while Path.is_slash (reverse cs))).

(** The characters of a reversed path paired with their indices. *)
Fixpoint countdown (r : list ascii) : list (Z * ascii) :=
  match r with
  | [] => []
  | c :: r' => (Z.of_nat (length r'), c) :: countdown r'
  end.

(** No code unit of the string is a path separator. *)
Definition slash_free (s : string) : Prop :=
  Forall (fun c => not_slash c = true) (list_ascii_of_string s).

(** A code unit that is neither a separator nor a dot. *)
Definition plain_char (c : ascii) : bool := negb (Path.is_slash c) && negb (Path.is_dot c).

(** No code unit of the string is a separator or a dot. *)
Definition plain (s : string) : Prop :=
  Forall (fun c => plain_char c = true) (list_ascii_of_string s).

(** * Properties *)

(** ** Sanity checks of the primitives on concrete inputs *)

Example basename_examples :
  Path.basename "./a.png" = "a.png" /\ Path.basename "dir/sub//" = "sub"
  /\ Path.basename "remote/path/file.jpg" = "file.jpg" /\ Path.basename "/" = "".
Proof. repeat split; reflexivity. Qed.

Example extname_examples :
  Path.extname "a/b.c/index.html" = ".html" /\ Path.extname "dir/.json" = ""
  /\ Path.extname ".." = "" /\ Path.extname "..." = "." /\ Path.extname "a.b." = "."
  /\ Path.extname "archive.tar.gz/" = ".gz".
Proof. repeat split; reflexivity. Qed.

Example fixed_to_string_examples :
  Js.fixed_to_string 150 2 = "1.5" /\ Js.fixed_to_string 102400 2 = "1024"
  /\ Js.fixed_to_string 113 2 = "1.13" /\ Js.fixed_to_string 7 0 = "7"
  /\ Js.fixed_to_string 1005 2 = "10.05".
Proof. repeat split; reflexivity. Qed.

Example formatBytes_examples :
  formatBytes 1536 default_decimals = "1.5 KB"
  /\ formatBytes 1152 default_decimals = "1.13 KB"
  /\ formatBytes 1048575 default_decimals = "1024 KB"
  /\ formatBytes 1073741824 default_decimals = "1 GB"
  /\ formatBytes 1234567 (-1) = "1 MB".
Proof. repeat split; reflexivity. Qed.

(** ** Numbers *)

Lemma digit_char_value d :
  0 <= d < 10 -> Z.of_nat (nat_of_ascii (Js.digit_char d)) - 48 = d.
Proof.
  intros Hd. unfold Js.digit_char. rewrite nat_ascii_embedding by lia. lia.
Qed.

Lemma decimal_digits_value fuel n acc :
  0 <= n < 2 ^ (Z.of_nat fuel + 1) ->
  digits_value 0 (Js.decimal_digits fuel n acc) = digits_value n acc.
Proof.
  revert n acc. induction fuel as [|fuel IH]; intros n acc Hn.
  - change (2 ^ (Z.of_nat 0 + 1)) with 2 in Hn.
    simpl. unfold digits_value. simpl.
    rewrite digit_char_value by (apply Z.mod_pos_bound; lia).
    rewrite Z.mod_small by lia. reflexivity.
  - cbn [Js.decimal_digits]. destruct (Z.ltb_spec n 10) as [Hlt|Hge].
    + unfold digits_value. simpl.
      rewrite digit_char_value by (apply Z.mod_pos_bound; lia).
      rewrite Z.mod_small by lia. reflexivity.
    + rewrite IH.
      * unfold digits_value. simpl.
        rewrite digit_char_value by (apply Z.mod_pos_bound; lia).
        f_equal. pose proof (Z.div_mod n 10 ltac:(lia)). lia.
      * split; [apply Z.div_pos; lia|].
        apply Z.div_lt_upper_bound; [lia|].
        replace (Z.of_nat (S fuel) + 1) with (Z.succ (Z.of_nat fuel + 1)) in Hn by lia.
        rewrite Z.pow_succ_r in Hn by lia.
        assert (0 < 2 ^ (Z.of_nat fuel + 1)) by (apply Z.pow_pos_nonneg; lia).
        lia.
Qed.

(** The fuel of [int_chars] never runs out: reading the digits back gives the
    number. *)
Lemma int_chars_value n : 0 <= n -> digits_value 0 (Js.int_chars n) = n.
Proof.
  intros Hn. unfold Js.int_chars. rewrite decimal_digits_value; [reflexivity|].
  rewrite Z2Nat.id by apply Z.log2_nonneg.
  destruct (Z.eq_dec n 0) as [->|Hne]; [simpl; lia|].
  pose proof (Z.log2_spec n ltac:(lia)) as Hl.
  replace (Z.log2 n + 1) with (Z.succ (Z.log2 n)) by lia. lia.
Qed.

(** ** Arrays *)

Lemma indexOf_from_lower_bound l x i :
  Js.includes l x = true -> i <= Js.indexOf_from i l x.
Proof.
  revert i. induction l as [|y l IH]; intros i; simpl; [discriminate|].
  destruct (String.eqb y x); simpl; [lia|].
  intros H. specialize (IH (i + 1) H). lia.
Qed.

Lemma index_Some_bounds {A} (l : list A) i x :
  Js.index l i = Some x -> 0 <= i < Z.of_nat (length l).
Proof.
  unfold Js.index. destruct (Z.ltb_spec i 0) as [Hneg|Hpos]; [discriminate|].
  intros Hl%lookup_lt_Some. lia.
Qed.

(** ** C1: environment files *)

Lemma dotenv_config_lookup files o env k :
  Dotenv.override o = None ->
  Dotenv.config files o env !! k =
    match env !! k with
    | Some v => Some v
    | None => default ∅ (files !! default ".env" (Dotenv.path o)) !! k
    end.
Proof.
  intros Ho. unfold Dotenv.config. rewrite Ho.
  destruct (files !! _) as [parsed|]; simpl.
  - rewrite lookup_union. destruct (env !! k), (parsed !! k); reflexivity.
  - rewrite lookup_empty. destruct (env !! k); reflexivity.
Qed.

(** C1 (as the code has it): when the raw arguments hold [--env-file]
    followed by a path, the default [.env] and the named file are both
    loaded, in that order, and neither replaces a value that is already
    set: a key keeps the value of the process environment if it had one,
    else takes the one of [.env], else the one of the named file. *)
Theorem env_file_first_loaded_wins files process_argv env p k :
  Js.includes process_argv "--env-file" = true ->
  Js.index process_argv (Js.indexOf process_argv "--env-file" + 1) = Some p ->
  (load_environment files process_argv env).1 !! k =
    match env !! k with
    | Some v => Some v
    | None =>
        match default ∅ (files !! ".env") !! k with
        | Some v => Some v
        | None => default ∅ (files !! p) !! k
        end
    end.
Proof.
  intros Hinc Hidx. unfold load_environment. rewrite Hinc.
  pose proof (indexOf_from_lower_bound _ _ 0 Hinc) as Hlo.
  pose proof (index_Some_bounds _ _ _ Hidx) as Hhi.
  fold (Js.indexOf process_argv "--env-file") in Hlo.
  destruct (Z.gtb_spec (Js.indexOf process_argv "--env-file") (-1)); [|lia].
  destruct (Z.ltb_spec (Js.indexOf process_argv "--env-file")
              (Z.of_nat (length process_argv) - 1)); [|lia].
  simpl. rewrite Hidx.
  rewrite !dotenv_config_lookup by reflexivity. simpl.
  destruct (env !! k); reflexivity.
Qed.

Lemma env_file_first_loaded_wins_witness :
  let files : gmap string (gmap string string) :=
    {[ ".env" := {[ "AWS_REGION" := "eu-west-1" ]};
       "prod.env" := {[ "AWS_REGION" := "us-west-2"; "AWS_PROFILE" := "prod" ]} ]} in
  let process_argv :=
    ["node"; "aws-s3-cli.js"; "--env-file"; "prod.env"; "list-buckets"] in
  let env : gmap string string := {[ "HOME" := "/root" ]} in
  Js.includes process_argv "--env-file" = true
  /\ Js.index process_argv (Js.indexOf process_argv "--env-file" + 1) = Some "prod.env"
  /\ (load_environment files process_argv env).1 !! "AWS_PROFILE" = Some "prod".
Proof.
  intros files process_argv env.
  split; [reflexivity|]. split; [reflexivity|].
  rewrite (env_file_first_loaded_wins files process_argv env "prod.env" "AWS_PROFILE");
    reflexivity.
Defined.

(** C1 (as stated) fails: a variable defined in both files keeps the value
    of the default file. *)
Lemma env_file_does_not_override_default :
  let files : gmap string (gmap string string) :=
    {[ ".env" := {[ "AWS_REGION" := "eu-west-1" ]};
       "prod.env" := {[ "AWS_REGION" := "us-west-2" ]} ]} in
  let env :=
    (load_environment files
       ["node"; "aws-s3-cli.js"; "--env-file"; "prod.env"; "list-buckets"] ∅).1 in
  files !! "prod.env" = Some {[ "AWS_REGION" := "us-west-2" ]}
  /\ env !! "AWS_REGION" = Some "eu-west-1"
  /\ env !! "AWS_REGION" <> Some "us-west-2".
Proof. repeat split; try reflexivity. vm_compute. discriminate. Qed.

(** ** Handlers and dispatch *)

(** Unfolds the effect primitives a handler body is made of. *)
Ltac run_handler :=
  unfold try_catch, path_basename, content_type_of, getS3Client, readFileSync,
    createWriteStream, pipeline, need_string, send, console_log, emit;
  simpl.

Lemma find_command_create_bucket :
  find_command "create-bucket"
  = Some (mkCommand "create-bucket" "Create a new S3 bucket" ["name"] [] createBucket).
Proof. reflexivity. Qed.

Lemma missing_options_nil c p :
  Forall (fun k => is_Some (options p !! k)) (demanded c) -> missing_options c p = [].
Proof.
  unfold missing_options. induction 1 as [|k ks [v Hk] _ IH]; simpl; [reflexivity|].
  rewrite Hk, bool_decide_eq_false_2 by discriminate. exact IH.
Qed.

Lemma missing_options_cons c p k :
  k ∈ demanded c -> options p !! k = None -> missing_options c p <> [].
Proof.
  unfold missing_options. intros Hin Hk Hnil.
  assert (In k (List.filter (fun k => bool_decide (options p !! k = None)) (demanded c))) as Hf.
  { apply filter_In. split; [by apply list_elem_of_In|]. by apply bool_decide_eq_true_2. }
  rewrite Hnil in Hf. destruct Hf.
Qed.

Lemma createBucket_calls w argv :
  api_calls (trace (createBucket w argv)) =
    [(argv_region argv,
      CreateBucketCommand (argv_name argv)
        (if decide (argv_region argv = "us-east-1") then None
         else Some (argv_region argv)))].
Proof.
  unfold createBucket.
  assert ((if negb (String.eqb (argv_region argv) "us-east-1")
           then Some (argv_region argv) else None)
          = (if decide (argv_region argv = "us-east-1") then None
             else Some (argv_region argv))) as ->.
  { destruct (String.eqb_spec (argv_region argv) "us-east-1"), (decide _);
      simpl; congruence. }
  run_handler. destruct (s3_send w _ _); reflexivity.
Qed.

(** C2: a create-bucket invocation sends exactly one request; it carries no
    location constraint when the effective region is us-east-1 (which it is
    when [--region] is omitted) and carries the region otherwise. *)
Theorem createBucket_location_constraint w p rest name :
  help p = false -> version p = false ->
  positional p = "create-bucket" :: rest ->
  options p !! "name" = Some name ->
  api_calls (trace (cli w p)) =
    [(effective_region p,
      CreateBucketCommand (Some name)
        (if decide (effective_region p = "us-east-1") then None
         else Some (effective_region p)))]
  /\ (options p !! "region" = None -> effective_region p = "us-east-1").
Proof.
  intros Hh Hv Hpos Hname. split.
  - unfold cli. rewrite Hh, Hv, Hpos, find_command_create_bucket.
    rewrite missing_options_nil.
    + simpl. rewrite createBucket_calls. simpl. by rewrite Hname.
    + simpl. repeat constructor. by rewrite Hname.
  - unfold effective_region. by intros ->.
Qed.

Lemma createBucket_location_constraint_witness :
  let p1 := mkParsed ["create-bucket"] {[ "name" := "X" ]} false false in
  let p2 := mkParsed ["create-bucket"]
              {[ "name" := "X"; "region" := "eu-west-1" ]} false false in
  api_calls (trace (cli quiet_world p1))
    = [("us-east-1", CreateBucketCommand (Some "X") None)]
  /\ api_calls (trace (cli quiet_world p2))
    = [("eu-west-1", CreateBucketCommand (Some "X") (Some "eu-west-1"))].
Proof.
  intros p1 p2. split.
  - exact (proj1 (createBucket_location_constraint quiet_world p1 [] "X"
                    eq_refl eq_refl eq_refl eq_refl)).
  - exact (proj1 (createBucket_location_constraint quiet_world p2 [] "X"
                    eq_refl eq_refl eq_refl eq_refl)).
Defined.

(** C4: get-bucket-region sends its one request through a client bound to
    us-east-1, whatever [argv.region] holds; and when the service answers
    with a null or empty location constraint, the region printed is
    us-east-1 and the process ends with code 0. *)
Theorem getBucketRegion_fixed_region w argv :
  api_calls (trace (getBucketRegion w argv))
    = [("us-east-1", GetBucketLocationCommand (argv_name argv))]
  /\ forall resp,
      s3_send w "us-east-1" (GetBucketLocationCommand (argv_name argv)) = inr resp ->
      LocationConstraint resp = None \/ LocationConstraint resp = Some "" ->
      getBucketRegion w argv =
        mkProcess
          [ConsoleLog ("Checking region for bucket: " +:+ Js.show (argv_name argv));
           Send "us-east-1" (GetBucketLocationCommand (argv_name argv));
           ConsoleLog ("Bucket '" +:+ Js.show (argv_name argv)
                       +:+ "' is in region: " +:+ "us-east-1")]
          0.
Proof.
  unfold getBucketRegion. run_handler. split.
  - destruct (s3_send w _ _); reflexivity.
  - intros resp -> [-> | ->]; reflexivity.
Qed.

Lemma getBucketRegion_fixed_region_witness :
  let w := mkWorld (fun _ _ => inr (mkResponse None (Some "") None None))
             (fun _ => None) (fun _ => true) in
  let argv := mkArgv "eu-west-1" ".env" (Some "X") None None None None None in
  api_calls (trace (getBucketRegion w argv))
    = [("us-east-1", GetBucketLocationCommand (Some "X"))]
  /\ getBucketRegion w argv =
       mkProcess
         [ConsoleLog "Checking region for bucket: X";
          Send "us-east-1" (GetBucketLocationCommand (Some "X"));
          ConsoleLog "Bucket 'X' is in region: us-east-1"]
         0.
Proof.
  intros w argv. split.
  - exact (proj1 (getBucketRegion_fixed_region w argv)).
  - exact (proj2 (getBucketRegion_fixed_region w argv)
             (mkResponse None (Some "") None None) eq_refl (or_intror eq_refl)).
Defined.

Lemma commands_match_spec_table :
  map (fun c => (command c, demanded c)) commands = spec_required_options.
Proof. reflexivity. Qed.

Lemma find_command_Some cmd c :
  find_command cmd = Some c -> c ∈ commands /\ command c = cmd.
Proof.
  unfold find_command. intros H. apply find_some in H as [Hin Heq].
  split; [by apply list_elem_of_In|]. by apply String.eqb_eq.
Qed.

Lemma cli_unknown_command w p cmd rest :
  help p = false -> version p = false ->
  positional p = cmd :: rest -> find_command cmd = None ->
  cli w p = mkProcess [] 0.
Proof. unfold cli. intros -> -> -> ->. reflexivity. Qed.

(** C5 (as the code has it): without the help or version switch, a run
    whose first positional token names a registered command and which lacks
    one of that command's demanded options ends with code 1 after a usage
    error and sends nothing to the service; so does a run without any
    positional token.  A first token that names no registered command sends
    nothing to the service either. *)
Theorem cli_usage_errors w p :
  help p = false -> version p = false ->
  (forall cmd rest c k,
     positional p = cmd :: rest -> find_command cmd = Some c ->
     k ∈ demanded c -> options p !! k = None ->
     exit_code (cli w p) = 1 /\ is_usage_error (trace (cli w p))
     /\ api_calls (trace (cli w p)) = [])
  /\ (positional p = [] ->
      cli w p = usage_failure "You need to specify a command"
      /\ exit_code (cli w p) = 1 /\ is_usage_error (trace (cli w p))
      /\ api_calls (trace (cli w p)) = [])
  /\ (forall cmd rest,
        positional p = cmd :: rest -> find_command cmd = None ->
        api_calls (trace (cli w p)) = []).
Proof.
  intros Hh Hv. split; [|split].
  - intros cmd rest c k Hpos Hfind Hin Hk. unfold cli. rewrite Hh, Hv, Hpos, Hfind.
    destruct (missing_options c p) as [|k' ks] eqn:Hm.
    + by apply (missing_options_cons c p k) in Hm.
    + repeat split. eexists. reflexivity.
  - intros Hpos. unfold cli. rewrite Hh, Hv, Hpos. repeat split. eexists. reflexivity.
  - intros cmd rest Hpos Hfind.
    by rewrite (cli_unknown_command w p cmd rest Hh Hv Hpos Hfind).
Qed.

Lemma cli_usage_errors_witness :
  let p := mkParsed ["create-bucket"] {[ "region" := "eu-west-1" ]} false false in
  help p = false /\ version p = false
  /\ exit_code (cli quiet_world p) = 1
  /\ is_usage_error (trace (cli quiet_world p))
  /\ api_calls (trace (cli quiet_world p)) = [].
Proof.
  intros p. split; [reflexivity|]. split; [reflexivity|].
  apply (proj1 (cli_usage_errors quiet_world p eq_refl eq_refl)
           "create-bucket" []
           (mkCommand "create-bucket" "Create a new S3 bucket" ["name"] [] createBucket)
           "name"); [reflexivity|reflexivity|constructor|reflexivity].
Defined.

(** C5 (as stated) fails on two counts: a token that names no command is
    not reported as a usage error (the process ends with code 0), and with
    the help switch a command that lacks its demanded option prints the
    help text and ends with code 0. *)
Lemma unknown_command_is_not_rejected :
  let unknown := cli quiet_world (mkParsed ["frobnicate"] ∅ false false) in
  let helped := cli quiet_world (mkParsed ["create-bucket"] ∅ true false) in
  find_command "frobnicate" = None
  /\ exit_code unknown = 0 /\ trace unknown = []
  /\ exit_code helped = 0 /\ trace helped = [ShowHelp false].
Proof. repeat split; reflexivity. Qed.

(** C7: without [--key], the one put-object request of upload-file carries
    the base name of the local path as its key ([./a.png] gives [a.png]);
    nothing is sent when the local file cannot be read. *)
Theorem uploadFile_default_key w argv f :
  argv_key argv = None -> argv_file argv = Some f ->
  api_calls (trace (uploadFile w argv)) =
    match fs_readFile w f with
    | Some content =>
        [(argv_region argv,
          PutObjectCommand (argv_bucket argv) (Path.basename f) content
            (getContentType f))]
    | None => []
    end.
Proof.
  intros Hkey Hfile.
  unfold uploadFile. rewrite Hkey, Hfile. run_handler.
  destruct (fs_readFile w f) as [content|]; simpl; [|reflexivity].
  destruct (s3_send w _ _); reflexivity.
Qed.

Lemma uploadFile_default_key_witness :
  let w := mkWorld (fun _ _ => inr (mkResponse None None None None))
             (fun f => if String.eqb f "./a.png" then Some "PNG-DATA" else None)
             (fun _ => true) in
  let argv := mkArgv "us-east-1" ".env" None (Some "B") None (Some "./a.png") None None in
  argv_key argv = None /\ argv_file argv = Some "./a.png"
  /\ api_calls (trace (uploadFile w argv))
     = [("us-east-1", PutObjectCommand (Some "B") "a.png" "PNG-DATA" "image/png")].
Proof.
  intros w argv. split; [reflexivity|]. split; [reflexivity|].
  exact (uploadFile_default_key w argv "./a.png" eq_refl eq_refl).
Defined.

(** C8: without [--output], the only file download-file opens for writing
    is the base name of the object key, and that is where a completed
    transfer ends up; when the response has no body the handler reports
    [Empty response body], ends with code 1 and has opened no file. *)
Theorem downloadFile_default_output w argv resp :
  s3_send w (argv_region argv) (GetObjectCommand (argv_bucket argv) (argv_key argv))
    = inr resp ->
  (forall k body,
     argv_output argv = None -> argv_key argv = Some k -> Body resp = Some body ->
     opened_for_write (trace (downloadFile w argv)) = [Path.basename k]
     /\ (stream_fails body = false -> fs_writable w (Path.basename k) = true ->
         downloadFile w argv =
           mkProcess
             [ConsoleLog ("Creating S3 client with region: " +:+ argv_region argv);
              Send (argv_region argv) (GetObjectCommand (argv_bucket argv) (Some k));
              CreateWriteStream (Path.basename k);
              PipelineDone (Path.basename k) (stream_data body);
              ConsoleLog ("File downloaded successfully to '" +:+ Path.basename k
                          +:+ "'.")]
             0))
  /\ (Body resp = None ->
      downloadFile w argv =
        mkProcess
          [ConsoleLog ("Creating S3 client with region: " +:+ argv_region argv);
           Send (argv_region argv)
             (GetObjectCommand (argv_bucket argv) (argv_key argv));
           ConsoleError "Error downloading file:" (Some (Error "Empty response body"))]
          1
      /\ exit_code (downloadFile w argv) = 1
      /\ opened_for_write (trace (downloadFile w argv)) = []).
Proof.
  intros Hsend.
  unfold downloadFile. run_handler. rewrite Hsend. split.
  - intros k body Hout Hkey Hbody. rewrite Hout, Hkey, Hbody. simpl. split.
    + destruct (stream_fails body); [reflexivity|].
      destruct (fs_writable w _); reflexivity.
    + intros -> ->. reflexivity.
  - intros ->. simpl. repeat split.
Qed.

Lemma downloadFile_default_output_witness :
  let resp := mkResponse None None None (Some (mkStream "DATA" false)) in
  let w := mkWorld (fun _ _ => inr resp) (fun _ => None) (fun _ => true) in
  let argv :=
    mkArgv "us-east-1" ".env" None (Some "B") (Some "remote/path/file.jpg") None None None in
  s3_send w (argv_region argv) (GetObjectCommand (argv_bucket argv) (argv_key argv))
    = inr resp
  /\ opened_for_write (trace (downloadFile w argv)) = ["file.jpg"].
Proof.
  intros resp w argv. split; [reflexivity|].
  exact (proj1 (proj1 (downloadFile_default_output w argv resp eq_refl)
                  "remote/path/file.jpg" (mkStream "DATA" false)
                  eq_refl eq_refl eq_refl)).
Defined.

(** ** Content types *)

Lemma contentTypes_entry ext mime :
  (ext, mime) ∈ contentTypes_entries ->
  Js.toLowerCase ext = ext /\ Js.or_else (contentTypes !! ext) "application/octet-stream" = mime.
Proof.
  intros Hin. apply list_elem_of_In in Hin. simpl in Hin.
  repeat (destruct Hin as [[= <- <-]|Hin]; [split; reflexivity|]).
  destruct Hin.
Qed.

(** C6 (as the code has it): the extension is looked up after lowercasing.
    A path whose lowercased extension is a key of the table gets the MIME
    type listed with that key (an extension [.json] in any letter case gets
    [application/json]); a path whose lowercased extension is no key of the
    table gets [application/octet-stream]. *)
Theorem getContentType_table p :
  (forall ext mime,
     (ext, mime) ∈ contentTypes_entries -> Js.toLowerCase (Path.extname p) = ext ->
     getContentType p = mime)
  /\ (Js.toLowerCase (Path.extname p) = ".json" -> getContentType p = "application/json")
  /\ ((forall mime, (Js.toLowerCase (Path.extname p), mime) ∉ contentTypes_entries) ->
      getContentType p = "application/octet-stream").
Proof.
  unfold getContentType. split; [|split].
  - intros ext mime Hin ->.
    destruct (contentTypes_entry ext mime Hin) as [_ Hm]. exact Hm.
  - intros ->. reflexivity.
  - intros Hnot. unfold contentTypes. rewrite not_elem_of_list_to_map_1; [reflexivity|].
    intros Hkey. apply list_elem_of_fmap in Hkey as ([k mime] & Hk & Hin).
    simpl in Hk. subst k. exact (Hnot mime Hin).
Qed.

Lemma getContentType_table_witness :
  (".json", "application/json") ∈ contentTypes_entries
  /\ Js.toLowerCase (Path.extname "data/Report.JSON") = ".json"
  /\ getContentType "data/Report.JSON" = "application/json"
  /\ (forall mime,
        (Js.toLowerCase (Path.extname "backup.tar.gz"), mime) ∉ contentTypes_entries)
  /\ getContentType "backup.tar.gz" = "application/octet-stream".
Proof.
  assert ((".json", "application/json") ∈ contentTypes_entries) as Hin.
  { apply list_elem_of_In. simpl. tauto. }
  assert (forall mime,
            (Js.toLowerCase (Path.extname "backup.tar.gz"), mime) ∉ contentTypes_entries)
    as Hnot.
  { intros mime Hm. apply list_elem_of_In in Hm. vm_compute in Hm.
    repeat (destruct Hm as [Hm|Hm]; [discriminate|]). destruct Hm. }
  split; [exact Hin|]. split; [reflexivity|]. split.
  - exact (proj1 (getContentType_table "data/Report.JSON") ".json" "application/json"
             Hin eq_refl).
  - split; [exact Hnot|].
    exact (proj2 (proj2 (getContentType_table "backup.tar.gz")) Hnot).
Defined.

(** C6 (as stated) fails on the extensions that are not keys of the table
    themselves: the extension of [x.JSON] is [.JSON], which the table does
    not list, and the path gets [application/json], not
    [application/octet-stream]. *)
Lemma getContentType_unlisted_extension :
  Path.extname "x.JSON" = ".JSON"
  /\ (forall mime, (".JSON", mime) ∉ contentTypes_entries)
  /\ contentTypes !! ".JSON" = None
  /\ getContentType "x.JSON" = "application/json"
  /\ getContentType "x.JSON" <> "application/octet-stream".
Proof.
  split; [reflexivity|]. split; [|split; [reflexivity|split; [reflexivity|discriminate]]].
  intros mime Hm. apply list_elem_of_In in Hm. vm_compute in Hm.
  repeat (destruct Hm as [Hm|Hm]; [discriminate|]). destruct Hm.
Qed.

Example lower_extension_examples :
  lower_extension "Report.Final.JSON" = "Report.Final.json"
  /\ lower_extension "DIR.X/FILE.TXT/" = "DIR.X/FILE.txt/"
  /\ lower_extension "DIR/.PNG" = "DIR/.PNG".
Proof. repeat split; reflexivity. Qed.

Lemma lower_char_class c : same_class c (Js.lower_char c).
Proof. destruct c as [[] [] [] [] [] [] [] []]; split; reflexivity. Qed.

Lemma lower_char_idem c : Js.lower_char (Js.lower_char c) = Js.lower_char c.
Proof. destruct c as [[] [] [] [] [] [] [] []]; reflexivity. Qed.

Lemma extname_loop_class l l' st :
  Forall2 (fun a b => a.1 = b.1 /\ same_class a.2 b.2) l l' ->
  Path.extname_loop l st = Path.extname_loop l' st.
Proof.
  intros HF. revert st.
  induction HF as [|[i c] [j d] l l' [Hi [Hs Hd]] _ IH]; intros st; [reflexivity|].
  simpl in *. subst j. rewrite Hs, Hd.
  destruct (Path.is_slash d); [destruct (negb _); [reflexivity|apply IH]|apply IH].
Qed.

Lemma ext_scan_class cs cs' :
  Forall2 same_class cs cs' -> Path.ext_scan cs = Path.ext_scan cs'.
Proof.
  intros HF. unfold Path.ext_scan, Path.indexed_desc.
  apply extname_loop_class, Forall2_reverse.
  apply Forall2_same_length_lookup_2.
  - rewrite !length_imap. by eapply Forall2_length.
  - intros i [a c] [b d]. rewrite !list_lookup_imap.
    destruct (cs !! i) as [x|] eqn:Hx; [|discriminate].
    destruct (cs' !! i) as [y|] eqn:Hy; [|discriminate].
    simpl. intros [= <- <-] [= <- <-]. split; [reflexivity|].
    simpl. eapply Forall2_lookup_lr; eauto.
Qed.

Lemma indexed_desc_snoc cs c :
  Path.indexed_desc (cs ++ [c]) = (Z.of_nat (length cs), c) :: Path.indexed_desc cs.
Proof.
  unfold Path.indexed_desc. rewrite imap_app, reverse_app. simpl.
  by rewrite Nat.add_0_r.
Qed.

Lemma indexed_desc_descending cs :
  descending (Z.of_nat (length cs)) (Path.indexed_desc cs).
Proof.
  induction cs as [|c cs IH] using rev_ind; [exact I|].
  rewrite indexed_desc_snoc, length_app. simpl. split; [lia|exact IH].
Qed.

Lemma extname_loop_bounds n len l st :
  descending n l -> n <= len ->
  ext_bounds len st ->
  (Path.e_end st = -1 \/ n < Path.e_end st) ->
  ext_bounds len (Path.extname_loop l st).
Proof.
  revert n st. induction l as [|[i c] l IH]; intros n st Hd Hn Hb He; [exact Hb|].
  simpl in Hd. destruct Hd as [Hi Hd]. simpl.
  destruct (Path.is_slash c).
  - destruct (negb _); [exact Hb|]. apply (IH i); [exact Hd|lia|exact Hb|lia].
  - apply (IH i); [exact Hd|lia| |].
    + unfold Path.ext_step, ext_bounds in *.
      destruct (Z.eqb_spec (Path.e_end st) (-1)) as [He1|He1], (Path.is_dot c); simpl;
        repeat (match goal with
                | |- context [if ?b then _ else _] => destruct b eqn:?
                end; simpl); lia.
    + unfold Path.ext_step.
      destruct (Z.eqb_spec (Path.e_end st) (-1)) as [He1|He1], (Path.is_dot c); simpl;
        repeat (match goal with
                | |- context [if ?b then _ else _] => destruct b eqn:?
                end; simpl); lia.
Qed.

Lemma ext_scan_bounds cs : ext_bounds (Z.of_nat (length cs)) (Path.ext_scan cs).
Proof.
  apply (extname_loop_bounds (Z.of_nat (length cs))).
  - apply indexed_desc_descending.
  - lia.
  - left. split; reflexivity.
  - left. reflexivity.
Qed.

(** When [extname] finds an extension it lies inside the path. *)
Lemma ext_scan_found cs :
  Path.ext_none (Path.ext_scan cs) = false ->
  0 <= Path.e_startDot (Path.ext_scan cs) < Path.e_end (Path.ext_scan cs)
  /\ Path.e_end (Path.ext_scan cs) <= Z.of_nat (length cs).
Proof.
  intros Hnone. unfold Path.ext_none in Hnone.
  destruct (ext_scan_bounds cs) as [[He Hs]|[He [Hs|Hs]]].
  - rewrite Hs in Hnone. discriminate.
  - rewrite Hs in Hnone. discriminate.
  - lia.
Qed.

Lemma lower_extension_imap_class cs : Forall2 same_class cs (lower_extension_imap cs).
Proof.
  unfold lower_extension_imap.
  destruct (Path.ext_none _).
  - apply Forall2_same_length_lookup_2; [reflexivity|].
    intros i x y Hx Hy. rewrite Hx in Hy. injection Hy as <-. by split.
  - apply Forall2_same_length_lookup_2; [by rewrite length_imap|].
    intros i x y Hx. rewrite list_lookup_imap, Hx. simpl. intros [= <-].
    destruct (_ && _); [apply lower_char_class|by split].
Qed.

Lemma extname_chars_lower_extension_imap cs :
  Path.extname_chars (lower_extension_imap cs)
  = map Js.lower_char (Path.extname_chars cs).
Proof.
  unfold Path.extname_chars.
  rewrite <- (ext_scan_class _ _ (lower_extension_imap_class cs)).
  unfold lower_extension_imap.
  destruct (Path.ext_none (Path.ext_scan cs)) eqn:Hnone; [reflexivity|].
  destruct (ext_scan_found cs Hnone) as (Hsd & Hen).
  set (st := Path.ext_scan cs) in *.
  unfold Js.slice_chars. apply list_eq. intros i.
  rewrite list_lookup_fmap, !lookup_take, !lookup_drop, list_lookup_imap.
  case_decide as Hi; [|reflexivity].
  destruct (cs !! _) as [c|]; [|reflexivity]. simpl.
  destruct (Z.leb_spec (Path.e_startDot st) (Z.of_nat (Z.to_nat (Path.e_startDot st) + i)));
    [|lia].
  destruct (Z.ltb_spec (Z.of_nat (Z.to_nat (Path.e_startDot st) + i)) (Path.e_end st));
    [reflexivity|lia].
Qed.

Lemma lower_extension_chars_imap cs :
  lower_extension_chars cs = lower_extension_imap cs.
Proof.
  unfold lower_extension_chars, lower_extension_imap.
  destruct (Path.ext_none (Path.ext_scan cs)) eqn:Hnone; [reflexivity|].
  destruct (ext_scan_found cs Hnone) as (Hsd & Hen).
  set (st := Path.ext_scan cs) in *.
  clear Hnone. unfold Js.slice_chars.
  set (sd := Path.e_startDot st) in *. set (en := Path.e_end st) in *.
  apply list_eq. intros i.
  rewrite list_lookup_imap.
  destruct (decide (i < Z.to_nat sd)%nat) as [Hlt|Hge].
  - rewrite lookup_app_l by (rewrite length_take; lia).
    rewrite lookup_take_lt by lia.
    destruct (cs !! i); [|reflexivity]. simpl.
    destruct (Z.leb_spec sd (Z.of_nat i)); [lia|]. reflexivity.
  - rewrite lookup_app_r by (rewrite length_take; lia).
    rewrite length_take, Nat.min_l by lia.
    destruct (decide (i < Z.to_nat en)%nat) as [Hlt'|Hge'].
    + rewrite lookup_app_l
        by (rewrite length_map, length_take, length_drop; lia).
      rewrite list_lookup_fmap, lookup_take_lt, lookup_drop by lia.
      replace (Z.to_nat sd + (i - Z.to_nat sd))%nat with i by lia.
      destruct (cs !! i); [|reflexivity]. simpl.
      destruct (Z.leb_spec sd (Z.of_nat i)); [|lia].
      destruct (Z.ltb_spec (Z.of_nat i) en); [reflexivity|lia].
    + rewrite lookup_app_r
        by (rewrite length_map, length_take, length_drop; lia).
      rewrite length_map, length_take, length_drop, lookup_drop.
      replace (Z.to_nat en + (i - Z.to_nat sd
                 - Z.to_nat (en - sd) `min` (length cs - Z.to_nat sd)))%nat
        with i by lia.
      destruct (cs !! i); [|reflexivity]. simpl.
      destruct (Z.leb_spec sd (Z.of_nat i)); [|lia].
      destruct (Z.ltb_spec (Z.of_nat i) en); [lia|reflexivity].
Qed.

(** [extname] of the path with its extension lowercased is the lowercased
    [extname] of the path. *)
Lemma extname_lower_extension p :
  Path.extname (lower_extension p) = Js.toLowerCase (Path.extname p).
Proof.
  unfold lower_extension, Path.extname, Js.toLowerCase.
  rewrite !list_ascii_of_string_of_list_ascii, lower_extension_chars_imap.
  by rewrite extname_chars_lower_extension_imap.
Qed.

Lemma toLowerCase_idem s : Js.toLowerCase (Js.toLowerCase s) = Js.toLowerCase s.
Proof.
  unfold Js.toLowerCase. rewrite list_ascii_of_string_of_list_ascii, map_map.
  f_equal. apply map_ext. intros c. apply lower_char_idem.
Qed.

(** C10: the content type of a path is the content type of the same path
    with its extension lowercased; a path ending in [.JSON] gets
    [application/json]. *)
Theorem getContentType_case_insensitive p :
  getContentType p = getContentType (lower_extension p)
  /\ getContentType "report.JSON" = "application/json".
Proof.
  split; [|reflexivity].
  unfold getContentType. by rewrite extname_lower_extension, toLowerCase_idem.
Qed.

(** ** Byte sizes *)

Section FloorLog.

Variable k : Z.
Hypothesis k_ge_2 : 2 <= k.

Lemma floor_log_fuel_spec fuel b :
  1 <= b < 2 ^ (Z.of_nat fuel + 1) ->
  0 <= floor_log_fuel fuel k b
  /\ k ^ floor_log_fuel fuel k b <= b < k ^ (floor_log_fuel fuel k b + 1).
Proof.
  revert b. induction fuel as [|fuel IH]; intros b Hb.
  - simpl in *. change (2 ^ 1) with 2 in Hb. rewrite Z.pow_1_r. lia.
  - cbn [floor_log_fuel]. destruct (Z.ltb_spec b k) as [Hlt|Hge].
    + rewrite Z.pow_1_r. simpl. lia.
    + assert (1 <= b / k) as Hq1 by (apply Z.div_le_lower_bound; lia).
      assert (b / k < 2 ^ (Z.of_nat fuel + 1)) as Hq2.
      { apply Z.div_lt_upper_bound; [lia|].
        replace (Z.of_nat (S fuel) + 1) with (Z.succ (Z.of_nat fuel + 1)) in Hb by lia.
        rewrite Z.pow_succ_r in Hb by lia.
        assert (0 < 2 ^ (Z.of_nat fuel + 1)) by (apply Z.pow_pos_nonneg; lia).
        nia. }
      destruct (IH (b / k) (conj Hq1 Hq2)) as (Hi & Hlo & Hhi).
      set (i := floor_log_fuel fuel k (b / k)) in *.
      pose proof (Z.mul_div_le b k ltac:(lia)) as Hdl.
      pose proof (Z.mul_succ_div_gt b k ltac:(lia)) as Hdu.
      split; [lia|].
      replace (1 + i) with (Z.succ i) by lia.
      replace (Z.succ i + 1) with (Z.succ (i + 1)) by lia.
      rewrite !Z.pow_succ_r by lia. split; nia.
Qed.

(** The fuel never runs out: [floor_log k b] is the exponent of the largest
    power of [k] that does not exceed [b]. *)
Lemma floor_log_spec b :
  1 <= b ->
  0 <= floor_log k b /\ k ^ floor_log k b <= b < k ^ (floor_log k b + 1).
Proof.
  intros Hb. apply floor_log_fuel_spec.
  rewrite Z2Nat.id by apply Z.log2_nonneg.
  pose proof (Z.log2_spec b ltac:(lia)) as Hl.
  replace (Z.log2 b + 1) with (Z.succ (Z.log2 b)) by lia. lia.
Qed.

End FloorLog.

Lemma floor_log_lt_iff b n :
  1 <= b -> 0 <= n -> (floor_log 1024 b < n <-> b < 1024 ^ n).
Proof.
  intros Hb Hn. destruct (floor_log_spec 1024 ltac:(lia) b Hb) as (Hi & Hlo & Hhi).
  split.
  - intros Hlt. eapply Z.lt_le_trans; [exact Hhi|].
    apply Z.pow_le_mono_r; lia.
  - intros Hlt. apply (Z.pow_lt_mono_r_iff 1024); [lia|lia|]. lia.
Qed.

Lemma toFixed_units_close num den dm :
  0 < den -> 
  2 * Z.abs (Js.toFixed_units num den dm * den - num * 10 ^ dm) <= den.
Proof.
  intros Hden. unfold Js.toFixed_units.
  set (x := 2 * num * 10 ^ dm + den).
  pose proof (Z.mul_div_le x (2 * den) ltac:(lia)) as Hl.
  pose proof (Z.mul_succ_div_gt x (2 * den) ltac:(lia)) as Hu.
  subst x. lia.
Qed.

Lemma index_sizes_Some i :
  0 <= i < 9 -> exists u, Js.index sizes i = Some u /\ u ∈ sizes.
Proof.
  intros Hi.
  assert (i = 0 \/ i = 1 \/ i = 2 \/ i = 3 \/ i = 4 \/ i = 5 \/ i = 6 \/ i = 7 \/ i = 8)
    as Hc by lia.
  clear Hi.
  repeat (destruct Hc as [->|Hc]; [eexists; split; [reflexivity|set_solver]|]).
  subst. eexists; split; [reflexivity|set_solver].
Qed.

Lemma index_sizes_None i : 9 <= i -> Js.index sizes i = None.
Proof.
  intros Hi. unfold Js.index. destruct (Z.ltb_spec i 0); [lia|].
  apply lookup_ge_None. simpl. lia.
Qed.

Lemma formatBytes_positive b :
  0 < b ->
  formatBytes b default_decimals =
    Js.fixed_to_string (Js.toFixed_units b (1024 ^ floor_log 1024 b) 2) 2
      +:+ " " +:+ Js.show (Js.index sizes (floor_log 1024 b)).
Proof.
  intros Hb. unfold formatBytes.
  destruct (Z.eqb_spec b 0); [lia|]. destruct (Z.ltb_spec b 0); [lia|]. reflexivity.
Qed.

(** C3 (as the code has it): a zero count is rendered [0 Bytes]; for a
    count [0 < b < 2^49] (512 TB), where the unit index does not depend on
    the rounding of [Math.log], the unit is the smallest one of the table
    for which the scaled value is below 1024 (the scaled value lies between 1
    and 1024), the number printed is the scaled value rounded to 2 decimals,
    and that number times the unit's power of 1024 differs from [b] by at
    most half a hundredth of that power.  Nothing of the kind holds up to
    [1024^9]: at [1024^5 - 1] the program takes the unit [PB], for a scaled
    value below 1. *)
Theorem formatBytes_unit_and_rounding :
  (forall decimals, formatBytes 0 decimals = "0 Bytes")
  /\ forall b, 0 < b < 2 ^ 49 ->
     exists i u n,
       Js.index sizes i = Some u
       /\ formatBytes b default_decimals = Js.fixed_to_string n 2 +:+ " " +:+ u
       /\ 1024 ^ i <= b < 1024 * 1024 ^ i
       /\ (forall j, 0 <= j < i -> 1024 * 1024 ^ j <= b)
       /\ n = Js.toFixed_units b (1024 ^ i) 2
       /\ 2 * Z.abs (n * 1024 ^ i - b * 100) <= 1024 ^ i.
Proof.
  split; [reflexivity|]. intros b [Hpos Hlt].
  destruct (floor_log_spec 1024 ltac:(lia) b ltac:(lia)) as (Hi & Hlo & Hhi).
  assert (floor_log 1024 b < 9) as Hi9 by (apply floor_log_lt_iff; lia).
  destruct (index_sizes_Some (floor_log 1024 b) ltac:(lia)) as (u & Hu & _).
  exists (floor_log 1024 b), u, (Js.toFixed_units b (1024 ^ floor_log 1024 b) 2).
  split; [exact Hu|]. split; [by rewrite formatBytes_positive, Hu|].
  replace (floor_log 1024 b + 1) with (Z.succ (floor_log 1024 b)) in Hhi by lia.
  rewrite Z.pow_succ_r in Hhi by lia.
  split; [lia|]. split; [|split; [reflexivity|]].
  - intros j Hj. rewrite <- Z.pow_succ_r by lia.
    etransitivity; [|exact Hlo]. apply Z.pow_le_mono_r; lia.
  - change 100 with (10 ^ 2). apply toFixed_units_close. apply Z.pow_pos_nonneg; lia.
Qed.

Lemma formatBytes_unit_and_rounding_witness :
  0 < 1536 < 2 ^ 49
  /\ exists i u n,
       Js.index sizes i = Some u
       /\ formatBytes 1536 default_decimals = Js.fixed_to_string n 2 +:+ " " +:+ u
       /\ 1024 ^ i <= 1536 < 1024 * 1024 ^ i
       /\ (forall j, 0 <= j < i -> 1024 * 1024 ^ j <= 1536)
       /\ n = Js.toFixed_units 1536 (1024 ^ i) 2
       /\ 2 * Z.abs (n * 1024 ^ i - 1536 * 100) <= 1024 ^ i.
Proof.
  split; [split; reflexivity|].
  exact (proj2 formatBytes_unit_and_rounding 1536 (conj eq_refl eq_refl)).
Defined.

(** C3 (as stated) fails: for 5 bytes the unit printed is [Bytes], which is
    not the largest unit with a scaled value below 1024 ([YB] is one too);
    and for [1024^10] bytes no unit of the table is printed at all. *)
Lemma formatBytes_largest_unit_fails :
  formatBytes 5 default_decimals = "5 Bytes"
  /\ floor_log 1024 5 = 0
  /\ ~ largest_unit_below_1024 5 (floor_log 1024 5)
  /\ formatBytes (1024 ^ 10) default_decimals = "1 undefined"
  /\ ~ largest_unit_below_1024 (1024 ^ 10) (floor_log 1024 (1024 ^ 10)).
Proof.
  split; [reflexivity|]. split; [reflexivity|]. split; [|split; [reflexivity|]].
  - intros (_ & _ & Hmax).
    assert (8 <= floor_log 1024 5) as Hle.
    { apply Hmax; [by eexists|reflexivity]. }
    vm_compute in Hle. apply Hle. reflexivity.
  - intros ([u Hu] & _). vm_compute in Hu. discriminate.
Qed.

Lemma digit_char_numeric n : is_numeric_char (Js.digit_char (n mod 10)) = true.
Proof.
  pose proof (Z.mod_pos_bound n 10 ltac:(lia)) as Hm.
  assert (n mod 10 = 0 \/ n mod 10 = 1 \/ n mod 10 = 2 \/ n mod 10 = 3 \/ n mod 10 = 4
          \/ n mod 10 = 5 \/ n mod 10 = 6 \/ n mod 10 = 7 \/ n mod 10 = 8 \/ n mod 10 = 9)
    as Hc by lia.
  clear Hm. repeat (destruct Hc as [->|Hc]; [reflexivity|]). rewrite Hc. reflexivity.
Qed.

Lemma decimal_digits_numeric fuel n acc :
  Forall (fun c => is_numeric_char c = true) acc ->
  Forall (fun c => is_numeric_char c = true) (Js.decimal_digits fuel n acc).
Proof.
  revert n acc. induction fuel as [|fuel IH]; intros n acc Hacc; simpl.
  - constructor; [apply digit_char_numeric|exact Hacc].
  - destruct (n <? 10).
    + constructor; [apply digit_char_numeric|exact Hacc].
    + apply IH. constructor; [apply digit_char_numeric|exact Hacc].
Qed.

Lemma frac_chars_numeric dm r :
  Forall (fun c => is_numeric_char c = true) (Js.frac_chars dm r).
Proof.
  revert r. induction dm as [|dm IH]; intros r; simpl; [constructor|].
  apply Forall_app. split; [apply IH|].
  constructor; [apply digit_char_numeric|constructor].
Qed.

Lemma drop_zeros_Forall (P : ascii -> Prop) l :
  Forall P l -> Forall P (Js.drop_zeros l).
Proof.
  induction 1 as [|c l Hc Hl IH]; simpl; [constructor|].
  destruct (Js.is_zero_char c); [exact IH|by constructor].
Qed.

Lemma fixed_chars_numeric n dm :
  Forall (fun c => is_numeric_char c = true) (Js.fixed_chars n dm).
Proof.
  unfold Js.fixed_chars.
  assert (Forall (fun c => is_numeric_char c = true)
            (Js.strip_trailing_zeros (Js.frac_chars (Z.to_nat dm) (n mod 10 ^ dm)))) as Hfr.
  { unfold Js.strip_trailing_zeros.
    apply Forall_reverse, drop_zeros_Forall, Forall_reverse, frac_chars_numeric. }
  destruct (Js.strip_trailing_zeros _) as [|c fr].
  - apply decimal_digits_numeric. constructor.
  - apply Forall_app. split; [apply decimal_digits_numeric; constructor|].
    constructor; [reflexivity|exact Hfr].
Qed.

Lemma list_ascii_of_string_app s t :
  list_ascii_of_string (s +:+ t) = list_ascii_of_string s ++ list_ascii_of_string t.
Proof. induction s as [|c s IH]; simpl; [reflexivity|by rewrite IH]. Qed.

Lemma unit_has_B u : u ∈ sizes -> "B"%char ∈ list_ascii_of_string u.
Proof.
  intros Hu. apply list_elem_of_In in Hu. simpl in Hu.
  repeat (destruct Hu as [<-|Hu]; [apply list_elem_of_In; simpl; tauto|]).
  destruct Hu.
Qed.

Lemma occurs_in_chars u s c :
  occurs_in u s -> c ∈ list_ascii_of_string u -> c ∈ list_ascii_of_string s.
Proof.
  intros (pre & post & ->) Hc. rewrite !list_ascii_of_string_app.
  rewrite !elem_of_app. auto.
Qed.

(** C9: the unit table has 9 entries; for a count [b > 0] the unit index
    is inside the table only when [b < 1024^9]; from [1024^9] on the lookup
    finds nothing, the text after the number is [undefined], and no unit
    name of the table occurs in the result. *)
Theorem formatBytes_unit_table_bounds b :
  0 < b ->
  length sizes = 9%nat
  /\ (is_Some (Js.index sizes (floor_log 1024 b)) -> b < 1024 ^ 9)
  /\ (1024 ^ 9 <= b ->
      Js.index sizes (floor_log 1024 b) = None
      /\ (exists n, formatBytes b default_decimals
                    = Js.fixed_to_string n 2 +:+ " undefined")
      /\ forall u, u ∈ sizes -> ~ occurs_in u (formatBytes b default_decimals)).
Proof.
  intros Hb. split; [reflexivity|].
  destruct (floor_log_spec 1024 ltac:(lia) b ltac:(lia)) as (Hi & _).
  pose proof (floor_log_lt_iff b 9 ltac:(lia) ltac:(lia)) as Hiff.
  split.
  - rewrite <- Hiff. intros [u Hu].
    destruct (Z.lt_ge_cases (floor_log 1024 b) 9) as [|Hge]; [done|].
    by rewrite index_sizes_None in Hu.
  - intros Hge.
    assert (Js.index sizes (floor_log 1024 b) = None) as Hnone.
    { apply index_sizes_None. lia. }
    assert (formatBytes b default_decimals
            = Js.fixed_to_string (Js.toFixed_units b (1024 ^ floor_log 1024 b) 2) 2
              +:+ " undefined") as Hfmt.
    { by rewrite formatBytes_positive, Hnone. }
    split; [exact Hnone|]. split; [eexists; exact Hfmt|].
    intros u Hu Hocc.
    pose proof (occurs_in_chars _ _ _ Hocc (unit_has_B u Hu)) as HB.
    rewrite Hfmt, list_ascii_of_string_app in HB.
    unfold Js.fixed_to_string in HB. rewrite list_ascii_of_string_of_list_ascii in HB.
    apply elem_of_app in HB as [HB|HB].
    + pose proof (fixed_chars_numeric (Js.toFixed_units b (1024 ^ floor_log 1024 b) 2) 2)
        as Hnum.
      rewrite Forall_forall in Hnum. specialize (Hnum _ HB). discriminate.
    + apply list_elem_of_In in HB. simpl in HB.
      repeat (destruct HB as [HB|HB]; [discriminate|]). destruct HB.
Qed.

Lemma formatBytes_unit_table_bounds_witness :
  0 < 1024 ^ 9
  /\ Js.index sizes (floor_log 1024 (1024 ^ 9)) = None
  /\ formatBytes (1024 ^ 9) default_decimals = "1 undefined".
Proof.
  split; [reflexivity|]. split; [|reflexivity].
  exact (proj1 (proj2 (proj2 (formatBytes_unit_table_bounds (1024 ^ 9) eq_refl))
                  ltac:(discriminate))).
Defined.

(** * Further properties of the handlers, the dispatcher and the helpers *)

(** ** Shapes of traces *)

Lemma item_lines_logs {A} (g : nat -> A -> string) (l : list A) :
  Forall is_log (concat (imap (fun i x => [ConsoleLog (g i x)]) l)).
Proof.
  revert g. induction l as [|x l IH]; intros g; [constructor|].
  rewrite imap_cons. simpl. constructor; [by eexists|]. apply (IH (g ∘ S)).
Qed.

Lemma api_calls_app t1 t2 : api_calls (t1 ++ t2) = api_calls t1 ++ api_calls t2.
Proof. unfold api_calls. apply omap_app. Qed.

Lemma api_calls_logs t : Forall is_log t -> api_calls t = [].
Proof.
  induction 1 as [|e t [line ->] _ IH]; [reflexivity|]. simpl. exact IH.
Qed.

Ltac handler_cases :=
  run_handler;
  repeat (match goal with
          | |- context [match s3_send ?w ?r ?c with _ => _ end] =>
              destruct (s3_send w r c) as [?e|?resp] eqn:?; simpl
          | |- context [match Buckets ?r with _ => _ end] =>
              destruct (Buckets r) as [[|? ?]|] eqn:?; simpl
          | |- context [match Contents ?r with _ => _ end] =>
              destruct (Contents r) as [[|? ?]|] eqn:?; simpl
          | |- context [match Body ?r with _ => _ end] =>
              destruct (Body r) as [?body|] eqn:?; simpl
          | |- context [Js.truthy ?o] => destruct (Js.truthy o) eqn:?; simpl
          | |- context [match argv_file ?a with _ => _ end] =>
              destruct (argv_file a) as [?f|] eqn:?; simpl
          | |- context [match argv_key ?a with _ => _ end] =>
              destruct (argv_key a) as [?k|] eqn:?; simpl
          | |- context [match fs_readFile ?w ?f with _ => _ end] =>
              destruct (fs_readFile w f) as [?content|] eqn:?; simpl
          | |- context [if stream_fails ?b then _ else _] =>
              destruct (stream_fails b) eqn:?; simpl
          | |- context [if fs_writable ?w ?p then _ else _] =>
              destruct (fs_writable w p) eqn:?; simpl
          end).

Lemma elem_of_commands c :
  c ∈ commands ->
  handler c = listBuckets \/ handler c = getBucketRegion \/ handler c = createBucket
  \/ handler c = deleteBucket \/ handler c = listFiles \/ handler c = uploadFile
  \/ handler c = downloadFile \/ handler c = deleteFile.
Proof.
  intros Hc. apply list_elem_of_In in Hc. simpl in Hc.
  repeat (destruct Hc as [<-|Hc]; [simpl; tauto|]). destruct Hc.
Qed.

Lemma handler_one_call w argv c :
  c ∈ commands -> (length (api_calls (trace (handler c w argv))) <= 1)%nat.
Proof.
  intros Hc. apply elem_of_commands in Hc.
  destruct Hc as [-> | [-> | [-> | [-> | [-> | [-> | [-> | ->]]]]]]].
  - unfold listBuckets. handler_cases; try lia.
    rewrite api_calls_logs; [simpl; lia|]. apply (item_lines_logs (fun i b => _)).
  - unfold getBucketRegion. handler_cases; lia.
  - unfold createBucket. handler_cases; lia.
  - unfold deleteBucket. handler_cases; lia.
  - unfold listFiles. handler_cases; try lia.
    all: rewrite api_calls_logs; [simpl; lia|]; apply (item_lines_logs (fun i b => _)).
  - unfold uploadFile. handler_cases; lia.
  - unfold downloadFile. handler_cases; lia.
  - unfold deleteFile. handler_cases; lia.
Qed.

Lemma logs_not_errors t : Forall is_log t -> Forall (fun e => ~ on_stderr e) t.
Proof.
  intros Ht. eapply Forall_impl; [exact Ht|].
  intros e [line ->] [(m & err & H)|H]; discriminate.
Qed.

Ltac not_error := intros [(? & ? & ?)|?]; discriminate.

Ltac no_errors :=
  repeat (first [ apply Forall_nil_2
                | apply Forall_cons_2; [not_error|]
                | apply logs_not_errors, (item_lines_logs (fun i b => _)) ]).

Lemma try_catch_reports prefix (body : Eff unit) :
  Forall (fun e => ~ on_stderr e) body.1 -> reports_failure (try_catch prefix body).
Proof.
  destruct body as [t [e|[]]]; simpl; intros Ht.
  - right. split; [reflexivity|]. right. by eexists _, _, _.
  - left. by split.
Qed.

Lemma handler_reports w argv c : c ∈ commands -> reports_failure (handler c w argv).
Proof.
  intros Hc. apply elem_of_commands in Hc.
  destruct Hc as [-> | [-> | [-> | [-> | [-> | [-> | [-> | ->]]]]]]].
  - apply try_catch_reports. handler_cases; no_errors.
  - apply try_catch_reports. handler_cases; no_errors.
  - apply try_catch_reports. handler_cases; no_errors.
  - apply try_catch_reports. handler_cases; no_errors.
  - apply try_catch_reports. handler_cases; no_errors.
  - apply try_catch_reports. handler_cases; no_errors.
  - apply try_catch_reports. handler_cases; no_errors.
  - apply try_catch_reports. handler_cases; no_errors.
Qed.

Lemma cli_cases w p :
  cli w p = mkProcess [ShowHelp false] 0
  \/ cli w p = mkProcess [ShowVersion] 0
  \/ (exists m, cli w p = usage_failure m)
  \/ cli w p = mkProcess [] 0
  \/ exists c rest,
       c ∈ commands /\ positional p = command c :: rest
       /\ cli w p = handler c w (parsed_argv p).
Proof.
  unfold cli. destruct (help p); [tauto|]. destruct (version p); [tauto|].
  destruct (positional p) as [|cmd rest]; [right; right; left; by eexists|].
  destruct (find_command cmd) as [c|] eqn:Hfind; [|tauto].
  destruct (missing_options c p); [|right; right; left; by eexists].
  apply find_command_Some in Hfind as [Hc <-].
  right; right; right; right. by exists c, rest.
Qed.

Ltac one_call :=
  right; eexists _, _; split; [reflexivity|split; reflexivity].

(** What a handler sends: nothing, or the one request of its command,
    through a client of the requested region (us-east-1 for
    get-bucket-region). *)
Lemma handler_calls w argv c :
  c ∈ commands ->
  api_calls (trace (handler c w argv)) = []
  \/ exists r cmd,
       api_calls (trace (handler c w argv)) = [(r, cmd)]
       /\ command_of_request cmd = command c
       /\ r = (if String.eqb (command c) "get-bucket-region"
               then "us-east-1" else argv_region argv).
Proof.
  intros Hc. apply list_elem_of_In in Hc. simpl in Hc.
  destruct Hc as [<-|[<-|[<-|[<-|[<-|[<-|[<-|[<-|[]]]]]]]]]; simpl.
  - unfold listBuckets. handler_cases;
      try (rewrite api_calls_logs by apply (item_lines_logs (fun i b => _)));
      one_call.
  - unfold getBucketRegion. handler_cases;
      one_call.
  - unfold createBucket. handler_cases;
      one_call.
  - unfold deleteBucket. handler_cases;
      one_call.
  - unfold listFiles. handler_cases;
      try (rewrite api_calls_logs by apply (item_lines_logs (fun i b => _)));
      one_call.
  - unfold uploadFile. handler_cases;
      first [ left; reflexivity
            | one_call ].
  - unfold downloadFile. handler_cases;
      one_call.
  - unfold deleteFile. handler_cases;
      one_call.
Qed.

Lemma ends_with_of_reverse {A} (l : list A) x y t' :
  reverse l = y :: x :: t' -> exists t, l = t ++ [x; y].
Proof.
  intros Hr. exists (reverse t').
  rewrite <- (reverse_involutive l), Hr, !reverse_cons, <- app_assoc. reflexivity.
Qed.

Ltac pick_call Hin :=
  apply list_elem_of_In in Hin; simpl in Hin;
  first [ destruct Hin as [Hin|[]]; injection Hin as <- <- | destruct Hin ].

Ltac service_error :=
  let Hin := fresh "Hin" in
  let Hs := fresh "Hs" in
  intros Hin Hs; pick_call Hin; try congruence;
  (split;
   [ reflexivity
   | eexists; eapply ends_with_of_reverse;
     match goal with
     | H1 : s3_send ?w ?r ?c = inl ?e1, H2 : s3_send ?w ?r ?c = inl ?e2 |- _ =>
         rewrite H1 in H2; injection H2 as ->
     end; reflexivity ]).

(** When the service rejects the request, the handler prints that error
    right after the request and ends with code 1. *)
Lemma handler_service_error w argv c r cmd e :
  c ∈ commands ->
  (r, cmd) ∈ api_calls (trace (handler c w argv)) ->
  s3_send w r cmd = inl e ->
  exit_code (handler c w argv) = 1
  /\ exists m t, trace (handler c w argv) = t ++ [Send r cmd; ConsoleError m (Some e)].
Proof.
  intros Hc. apply list_elem_of_In in Hc. simpl in Hc.
  destruct Hc as [<-|[<-|[<-|[<-|[<-|[<-|[<-|[<-|[]]]]]]]]]; simpl.
  - unfold listBuckets. handler_cases;
      try (rewrite api_calls_logs by apply (item_lines_logs (fun i b => _)));
      service_error.
  - unfold getBucketRegion. handler_cases; service_error.
  - unfold createBucket. handler_cases; service_error.
  - unfold deleteBucket. handler_cases; service_error.
  - unfold listFiles. handler_cases;
      try (rewrite api_calls_logs by apply (item_lines_logs (fun i b => _)));
      service_error.
  - unfold uploadFile. handler_cases; service_error.
  - unfold downloadFile. handler_cases; service_error.
  - unfold deleteFile. handler_cases; service_error.
Qed.

(** ** Runs as a whole *)

(** X1: whatever the arguments and the service do, a run sends at most one
    request to the service. *)
Theorem cli_at_most_one_call w p :
  (length (api_calls (trace (cli w p))) <= 1)%nat.
Proof.
  destruct (cli_cases w p) as [-> | [-> | [[m ->] | [-> | (c & rest & Hc & _ & ->)]]]];
    try (simpl; lia).
  destruct (handler_calls w (parsed_argv p) c Hc) as [-> | (r & cmd & -> & _)];
    simpl; lia.
Qed.

(** X2: a run ends with code 0 and has written nothing to standard error,
    or it ends with code 1 and has: either the three [console.error] calls
    of a failed validation (usage text, empty line, message) and nothing
    else, or one [console.error] as its last event and nothing on standard
    error before it.  No other exit code occurs. *)
Theorem cli_reports_failure w p : reports_failure (cli w p).
Proof.
  destruct (cli_cases w p) as [-> | [-> | [[m ->] | [-> | (c & rest & Hc & _ & ->)]]]].
  - left. split; [reflexivity|]. no_errors.
  - left. split; [reflexivity|]. no_errors.
  - right. split; [reflexivity|]. left. by exists m.
  - left. split; [reflexivity|]. no_errors.
  - by apply handler_reports.
Qed.

Lemma cli_sends_handler w p r cmd :
  (r, cmd) ∈ api_calls (trace (cli w p)) ->
  exists c rest,
    c ∈ commands /\ positional p = command c :: rest
    /\ cli w p = handler c w (parsed_argv p).
Proof.
  destruct (cli_cases w p) as [-> | [-> | [[m ->] | [-> | Hh]]]];
    [intros Hin; apply list_elem_of_In in Hin; destruct Hin..|intros _; exact Hh].
Qed.

(** X3: a request that a run sends is the one of the command named by the
    first positional token; the request of get-bucket-region goes through a
    client of us-east-1 whatever region was asked for, and the request of
    every other command through a client of the effective region. *)
Theorem cli_request_matches_command w p r cmd :
  (r, cmd) ∈ api_calls (trace (cli w p)) ->
  (exists rest, positional p = command_of_request cmd :: rest)
  /\ r = (if String.eqb (command_of_request cmd) "get-bucket-region"
          then "us-east-1" else effective_region p).
Proof.
  intros Hin. destruct (cli_sends_handler w p r cmd Hin) as (c & rest & Hc & Hpos & Heq).
  rewrite Heq in Hin.
  destruct (handler_calls w (parsed_argv p) c Hc) as [Hnil | (r' & cmd' & Hone & Hcmd & Hr)].
  - rewrite Hnil in Hin. apply list_elem_of_In in Hin. destruct Hin.
  - rewrite Hone in Hin. apply list_elem_of_singleton in Hin. injection Hin as -> ->.
    rewrite Hcmd. split; [by exists rest|exact Hr].
Qed.

Lemma cli_request_matches_command_witness :
  let p := mkParsed ["delete-file"; "extra"]
             {[ "bucket" := "B"; "key" := "k"; "region" := "eu-west-1" ]} false false in
  let cmd := DeleteObjectCommand (Some "B") (Some "k") in
  ("eu-west-1", cmd) ∈ api_calls (trace (cli quiet_world p))
  /\ (exists rest, positional p = "delete-file" :: rest)
  /\ "eu-west-1" = effective_region p.
Proof.
  intros p cmd.
  assert (("eu-west-1", cmd) ∈ api_calls (trace (cli quiet_world p))) as Hin.
  { apply list_elem_of_In. vm_compute. left. reflexivity. }
  split; [exact Hin|].
  exact (cli_request_matches_command quiet_world p "eu-west-1" cmd Hin).
Defined.

(** With [--region eu-west-1], get-bucket-region still asks us-east-1 and
    delete-bucket asks eu-west-1. *)
Example region_of_request_examples :
  let opts : gmap string string := {[ "name" := "B"; "region" := "eu-west-1" ]} in
  api_calls (trace (cli quiet_world (mkParsed ["get-bucket-region"] opts false false)))
    = [("us-east-1", GetBucketLocationCommand (Some "B"))]
  /\ api_calls (trace (cli quiet_world (mkParsed ["delete-bucket"] opts false false)))
     = [("eu-west-1", DeleteBucketCommand (Some "B"))].
Proof. split; reflexivity. Qed.

(** X4: when the service rejects the request of a run, that error is
    printed right after the request, nothing follows it, and the exit code
    is 1. *)
Theorem cli_service_error w p r cmd e :
  (r, cmd) ∈ api_calls (trace (cli w p)) ->
  s3_send w r cmd = inl e ->
  exit_code (cli w p) = 1
  /\ exists m t, trace (cli w p) = t ++ [Send r cmd; ConsoleError m (Some e)].
Proof.
  intros Hin Hs. destruct (cli_sends_handler w p r cmd Hin) as (c & rest & Hc & _ & Heq).
  rewrite Heq in *. by apply handler_service_error.
Qed.

Lemma cli_service_error_witness :
  let e := ServiceException "NoSuchBucket" in
  let p := mkParsed ["delete-bucket"] {[ "name" := "X" ]} false false in
  ("us-east-1", DeleteBucketCommand (Some "X"))
    ∈ api_calls (trace (cli (failing_world e) p))
  /\ s3_send (failing_world e) "us-east-1" (DeleteBucketCommand (Some "X")) = inl e
  /\ exit_code (cli (failing_world e) p) = 1
  /\ exists m t, trace (cli (failing_world e) p)
                 = t ++ [Send "us-east-1" (DeleteBucketCommand (Some "X"));
                         ConsoleError m (Some e)].
Proof.
  intros e p.
  assert (("us-east-1", DeleteBucketCommand (Some "X"))
            ∈ api_calls (trace (cli (failing_world e) p))) as Hin.
  { apply list_elem_of_In. vm_compute. left. reflexivity. }
  split; [exact Hin|]. split; [reflexivity|].
  exact (cli_service_error (failing_world e) p _ _ e Hin eq_refl).
Defined.

(** ** Paths *)

Lemma take_drop_while {A} (f : A -> bool) l : take_while f l ++ drop_while f l = l.
Proof. induction l as [|x l IH]; simpl; [reflexivity|]. destruct (f x); simpl; congruence. Qed.

Lemma take_while_Forall {A} (f : A -> bool) l : Forall (fun x => f x = true) (take_while f l).
Proof.
  induction l as [|x l IH]; simpl; [constructor|].
  destruct (f x) eqn:Hx; [by constructor|constructor].
Qed.

Lemma drop_while_head {A} (f : A -> bool) l x l' :
  drop_while f l = x :: l' -> f x = false.
Proof.
  induction l as [|y l IH]; simpl; [discriminate|].
  destruct (f y) eqn:Hy; [exact IH|]. intros [= <- <-]. exact Hy.
Qed.

Lemma take_while_app_stop {A} (f : A -> bool) l1 x l2 :
  Forall (fun y => f y = true) l1 -> f x = false ->
  take_while f (l1 ++ x :: l2) = l1.
Proof.
  induction 1 as [|y l1 Hy _ IH]; intros Hx; simpl.
  - by rewrite Hx.
  - rewrite Hy. f_equal. by apply IH.
Qed.

Lemma take_while_all {A} (f : A -> bool) l :
  Forall (fun y => f y = true) l -> take_while f l = l.
Proof. induction 1 as [|y l Hy _ IH]; simpl; [reflexivity|]. by rewrite Hy, IH. Qed.

Lemma indexed_desc_countdown cs : Path.indexed_desc cs = countdown (reverse cs).
Proof.
  induction cs as [|c cs IH] using rev_ind; [reflexivity|].
  rewrite indexed_desc_snoc, reverse_snoc. simpl.
  by rewrite length_reverse, IH.
Qed.

(** The loop of [basename] once the end of the component is known: it stops
    at the first separator. *)
Lemma basename_loop_component r e :
  e <> -1 ->
  Path.basename_loop (countdown r) (Path.mkBase 0 e false)
  = Path.mkBase (Z.of_nat (length (drop_while not_slash r))) e false.
Proof.
  intros He. induction r as [|c r IH]; [reflexivity|].
  simpl. unfold not_slash. destruct (Path.is_slash c); simpl.
  - f_equal. lia.
  - destruct (Z.eqb_spec e (-1)); [done|]. exact IH.
Qed.

Lemma basename_loop_trailing r :
  Path.basename_loop (countdown r) Path.base_init
  = match drop_while Path.is_slash r with
    | [] => Path.base_init
    | c :: r' =>
        Path.mkBase (Z.of_nat (length (drop_while not_slash r')))
          (Z.of_nat (length (c :: r'))) false
    end.
Proof.
  induction r as [|c r IH]; [reflexivity|].
  simpl. destruct (Path.is_slash c); simpl; [exact IH|].
  rewrite basename_loop_component by lia. f_equal. lia.
Qed.

(** [path.basename] computes the last component. *)
Lemma basename_chars_spec cs : Path.basename_chars cs = last_component cs.
Proof.
  unfold Path.basename_chars, last_component.
  rewrite indexed_desc_countdown, basename_loop_trailing.
  rewrite <- (reverse_involutive cs) at 2.
  pose proof (take_drop_while Path.is_slash (reverse cs)) as Hr.
  destruct (drop_while Path.is_slash (reverse cs)) as [|c r'] eqn:Hdw; [reflexivity|].
  pose proof (drop_while_head _ _ _ _ Hdw) as Hc.
  cbn [Path.b_end Path.b_start]. destruct (Z.eqb_spec (Z.of_nat (length (c :: r'))) (-1));
    [lia|].
  rewrite <- Hr. simpl take_while. unfold not_slash at 2. rewrite Hc. simpl negb. cbv iota.
  pose proof (take_drop_while not_slash r') as Hr'.
  set (tw := take_while not_slash r') in *. set (dw := drop_while not_slash r') in *.
  rewrite <- Hr'. unfold Js.slice_chars.
  rewrite reverse_app, reverse_cons, reverse_app, <- !app_assoc.
  rewrite Nat2Z.id, drop_app_length' by (by rewrite length_reverse).
  rewrite reverse_cons, (app_assoc (reverse tw)).
  apply take_app_length'. rewrite length_app, !length_reverse. simpl.
  rewrite length_app. lia.
Qed.

Lemma drop_while_slash_free l :
  Forall (fun c => not_slash c = true) l -> drop_while Path.is_slash l = l.
Proof.
  destruct 1 as [|c l Hc _]; [reflexivity|]. simpl.
  unfold not_slash in Hc. by destruct (Path.is_slash c).
Qed.

Lemma last_component_slash_free cs :
  Forall (fun c => not_slash c = true) cs -> last_component cs = cs.
Proof.
  intros Hcs. unfold last_component.
  apply Forall_reverse in Hcs.
  rewrite drop_while_slash_free, take_while_all by exact Hcs.
  apply reverse_involutive.
Qed.

Lemma last_component_joined dir name :
  name <> [] -> Forall (fun c => not_slash c = true) name ->
  last_component (dir ++ "/"%char :: name) = name.
Proof.
  intros Hne Hname. unfold last_component.
  rewrite reverse_app, reverse_cons, <- app_assoc. simpl.
  apply Forall_reverse in Hname.
  destruct (reverse name) as [|c r] eqn:Hrev.
  { apply (f_equal reverse) in Hrev. rewrite reverse_involutive in Hrev. done. }
  assert (drop_while Path.is_slash ((c :: r) ++ "/"%char :: reverse dir)
          = (c :: r) ++ "/"%char :: reverse dir) as ->.
  { simpl. apply Forall_cons in Hname as [Hc _]. unfold not_slash in Hc.
    by destruct (Path.is_slash c). }
  rewrite take_while_app_stop by (exact Hname || reflexivity).
  rewrite <- Hrev. apply reverse_involutive.
Qed.

Lemma last_component_no_slash cs :
  Forall (fun c => not_slash c = true) (last_component cs).
Proof. unfold last_component. apply Forall_reverse, take_while_Forall. Qed.

Lemma last_component_trailing cs :
  last_component (cs ++ ["/"%char]) = last_component cs.
Proof. unfold last_component. by rewrite reverse_snoc. Qed.

(** The base name of [dir/name] is [name]. *)
Lemma basename_of_joined dir name :
  name <> "" -> slash_free name ->
  Path.basename (dir +:+ "/" +:+ name) = name.
Proof.
  intros Hne Hname. unfold Path.basename.
  rewrite basename_chars_spec, !list_ascii_of_string_app. simpl.
  rewrite last_component_joined; [apply string_of_list_ascii_of_string| |exact Hname].
  intros Hnil. apply Hne. rewrite <- (string_of_list_ascii_of_string name), Hnil.
  reflexivity.
Qed.

(** A base name holds no separator; [basename] is idempotent and leaves a
    name without separator alone. *)
Lemma basename_slash_free p :
  slash_free (Path.basename p)
  /\ Path.basename (Path.basename p) = Path.basename p
  /\ (slash_free p -> Path.basename p = p).
Proof.
  assert (slash_free (Path.basename p)) as Hsf.
  { unfold slash_free, Path.basename.
    rewrite list_ascii_of_string_of_list_ascii, basename_chars_spec.
    apply last_component_no_slash. }
  assert (forall q, slash_free q -> Path.basename q = q) as Hfix.
  { intros q Hq. unfold Path.basename.
    rewrite basename_chars_spec, last_component_slash_free by exact Hq.
    apply string_of_list_ascii_of_string. }
  split; [exact Hsf|]. split; [by apply Hfix|apply Hfix].
Qed.

(** A trailing separator does not change the base name. *)
Lemma basename_trailing_slash p :
  Path.basename (p +:+ "/") = Path.basename p.
Proof.
  unfold Path.basename.
  rewrite !basename_chars_spec, list_ascii_of_string_app. simpl.
  by rewrite last_component_trailing.
Qed.

Lemma extname_loop_plain l rest st :
  Forall (fun c => plain_char c = true) l ->
  Path.e_end st <> -1 -> Path.e_startDot st = -1 ->
  Path.extname_loop (countdown (l ++ rest)) st = Path.extname_loop (countdown rest) st.
Proof.
  intros Hl He Hs. induction Hl as [|c l Hc _ IH]; [reflexivity|].
  simpl. unfold plain_char in Hc.
  destruct (Path.is_slash c); [discriminate|]. destruct (Path.is_dot c); [discriminate|].
  unfold Path.ext_step. destruct (Z.eqb_spec (Path.e_end st) (-1)); [done|].
  rewrite Hs. simpl. exact IH.
Qed.

Lemma extname_loop_keeps l st :
  Path.e_startDot st <> -1 -> Path.e_end st <> -1 -> Path.e_preDotState st <> 0 ->
  Path.e_startDot (Path.extname_loop l st) = Path.e_startDot st
  /\ Path.e_end (Path.extname_loop l st) = Path.e_end st
  /\ Path.e_preDotState (Path.extname_loop l st) <> 0.
Proof.
  revert st. induction l as [|[i c] l IH]; intros st Hs He Hp; [by auto|].
  simpl. destruct (Path.is_slash c).
  - destruct (negb _); simpl; [by auto|].
    by apply IH.
  - assert (Path.e_startDot (Path.ext_step i (Path.is_dot c) st) = Path.e_startDot st
            /\ Path.e_end (Path.ext_step i (Path.is_dot c) st) = Path.e_end st
            /\ Path.e_preDotState (Path.ext_step i (Path.is_dot c) st) <> 0)
      as (Hs' & He' & Hp').
    { unfold Path.ext_step.
      destruct (Z.eqb_spec (Path.e_end st) (-1)); [done|].
      destruct (Z.eqb_spec (Path.e_startDot st) (-1)); [done|].
      destruct (Path.is_dot c); simpl; [|by auto].
      destruct (Z.eqb_spec (Path.e_preDotState st) 1); simpl; by auto. }
    destruct (IH (Path.ext_step i (Path.is_dot c) st)) as (H1 & H2 & H3);
      [congruence..|].
    rewrite H1, H2, Hs', He'. by auto.
Qed.

Lemma ext_step_dot i en :
  en <> -1 ->
  Path.ext_step i true (Path.mkExt (-1) 0 en false 0) = Path.mkExt i 0 en false 0.
Proof.
  intros Hen. unfold Path.ext_step. cbn.
  destruct (Z.eqb_spec en (-1)) as [Hbad|_]; [done|]. reflexivity.
Qed.

Lemma ext_step_before_dot i sd en dot :
  en <> -1 -> sd <> -1 ->
  Path.ext_step i dot (Path.mkExt sd 0 en false 0)
  = Path.mkExt sd 0 en false (if dot then 1 else -1).
Proof.
  intros Hen Hsd. unfold Path.ext_step. cbn.
  destruct (Z.eqb_spec en (-1)) as [Hbad|_]; [done|]. cbn.
  destruct (Z.eqb_spec sd (-1)) as [Hbad|_]; [done|]. by destruct dot.
Qed.

Lemma extname_loop_suffix c r d t :
  plain_char c = true -> Forall (fun c => plain_char c = true) r ->
  Path.is_slash d = false ->
  Path.extname_loop (countdown ((c :: r) ++ "."%char :: d :: t)) Path.ext_init
  = Path.extname_loop (countdown t)
      (Path.mkExt (Z.of_nat (length t) + 1) 0
         (Z.of_nat (length ((c :: r) ++ "."%char :: d :: t))) false
         (if Path.is_dot d then 1 else -1)).
Proof.
  intros Hc Hr Hd. unfold plain_char in Hc.
  destruct (Path.is_slash c) eqn:Hsc; [discriminate|].
  destruct (Path.is_dot c) eqn:Hdc; [discriminate|].
  change ((c :: r) ++ "."%char :: d :: t) with (c :: (r ++ "."%char :: d :: t)).
  set (X := r ++ "."%char :: d :: t).
  assert (length X = (length r + 2 + length t)%nat) as HX.
  { unfold X. rewrite length_app. simpl. lia. }
  cbn [countdown Path.extname_loop]. rewrite Hsc, Hdc.
  assert (Path.ext_step (Z.of_nat (length X)) false Path.ext_init
          = Path.mkExt (-1) 0 (Z.of_nat (length X) + 1) false 0) as -> by reflexivity.
  unfold X. rewrite extname_loop_plain by (exact Hr || (cbn; lia) || reflexivity).
  fold X.
  cbn [countdown Path.extname_loop].
  change (Path.is_slash ".") with false. change (Path.is_dot ".") with true.
  rewrite Hd. rewrite ext_step_dot by lia.
  rewrite ext_step_before_dot by (cbn [length]; lia).
  f_equal. cbn [length]. f_equal; lia.
Qed.

(** A path that ends in a dot followed by plain characters, with something
    other than a separator before the dot: the extension is that ending. *)
Lemma extname_chars_suffix stem d e :
  Path.is_slash d = false -> e <> [] -> Forall (fun c => plain_char c = true) e ->
  Path.extname_chars (stem ++ d :: "."%char :: e) = "."%char :: e.
Proof.
  intros Hd Hne He.
  set (cs := stem ++ d :: "."%char :: e).
  assert (length cs = (length stem + 2 + length e)%nat) as Hlen.
  { unfold cs. rewrite length_app. simpl. lia. }
  assert (1 <= length e)%nat as Hle by (destruct e; [done|simpl; lia]).
  unfold Path.extname_chars, Path.ext_scan.
  rewrite indexed_desc_countdown.
  assert (reverse cs = reverse e ++ "."%char :: d :: reverse stem) as Hrev.
  { unfold cs. rewrite reverse_app, !reverse_cons, <- !app_assoc. reflexivity. }
  assert (length (reverse cs) = length cs) as Hlrev by apply length_reverse.
  rewrite Hrev in *. clear Hrev.
  destruct (reverse e) as [|c r] eqn:Hre.
  { apply (f_equal reverse) in Hre. rewrite reverse_involutive in Hre. done. }
  assert (Forall (fun c => plain_char c = true) (c :: r)) as Hcr.
  { rewrite <- Hre. by apply Forall_reverse. }
  apply Forall_cons in Hcr as [Hc Hr].
  rewrite extname_loop_suffix by assumption.
  rewrite Hlrev, length_reverse.
  set (st := Path.mkExt _ _ _ _ _).
  destruct (extname_loop_keeps (countdown (reverse stem)) st) as (Hs2 & He2 & Hp2);
    [cbn; lia|cbn; lia|cbn; by destruct (Path.is_dot d)|].
  set (st' := Path.extname_loop _ st) in *. cbn in Hs2, He2.
  assert (Path.ext_none st' = false) as Hnone.
  { unfold Path.ext_none. rewrite Hs2, He2.
    destruct (Z.eqb_spec (Z.of_nat (length stem) + 1) (-1)) as [Hbad|_]; [lia|].
    destruct (Z.eqb_spec (Z.of_nat (length cs)) (-1)) as [Hbad|_]; [lia|].
    destruct (Z.eqb_spec (Path.e_preDotState st') 0) as [Hbad|_]; [done|].
    destruct (Z.eqb_spec (Z.of_nat (length stem) + 1) (Z.of_nat (length cs) - 1))
      as [Hbad|_]; [lia|].
    by rewrite andb_false_r. }
  rewrite Hnone, Hs2, He2. unfold Js.slice_chars, cs.
  replace (Z.to_nat (Z.of_nat (length stem) + 1)) with (length (stem ++ [d]))
    by (rewrite length_app; simpl; lia).
  replace (stem ++ d :: "."%char :: e) with ((stem ++ [d]) ++ "."%char :: e)
    by (by rewrite <- app_assoc).
  rewrite drop_app_length. apply take_ge.
  rewrite !length_app. simpl. lia.
Qed.

(** [extname] of a path that ends in a dot and plain code units. *)
Lemma extname_of_suffix stem d e :
  d <> "/"%char -> e <> "" -> plain e ->
  Path.extname (stem +:+ String d ("." +:+ e)) = "." +:+ e.
Proof.
  intros Hd Hne He. unfold Path.extname.
  rewrite list_ascii_of_string_app. simpl.
  rewrite extname_chars_suffix.
  - simpl. by rewrite string_of_list_ascii_of_string.
  - unfold Path.is_slash. by apply Ascii.eqb_neq.
  - intros Hnil. apply Hne. by destruct e.
  - exact He.
Qed.

Lemma indexed_desc_lookup cs :
  Forall (fun a : Z * ascii => cs !! Z.to_nat a.1 = Some a.2) (Path.indexed_desc cs).
Proof.
  unfold Path.indexed_desc. apply Forall_reverse, Forall_lookup.
  intros i [j c]. rewrite list_lookup_imap.
  destruct (cs !! i) as [x|] eqn:Hx; [|discriminate].
  simpl. intros [= <- <-]. simpl. by rewrite Nat2Z.id.
Qed.

Lemma extname_loop_dot (cs : list ascii) l st :
  Forall (fun a : Z * ascii => cs !! Z.to_nat a.1 = Some a.2) l ->
  Path.e_startDot st = -1 \/ cs !! Z.to_nat (Path.e_startDot st) = Some "."%char ->
  Path.e_startDot (Path.extname_loop l st) = -1
  \/ cs !! Z.to_nat (Path.e_startDot (Path.extname_loop l st)) = Some "."%char.
Proof.
  intros Hl. revert st. induction Hl as [|[i c] l Hi _ IH]; intros st Hst; [exact Hst|].
  simpl in *. destruct (Path.is_slash c).
  - destruct (negb _); [exact Hst|by apply IH].
  - apply IH. unfold Path.ext_step.
    destruct (Path.is_dot c) eqn:Hdot.
    + apply Ascii.eqb_eq in Hdot. subst c.
      destruct (Path.e_end st =? -1); simpl;
        (destruct (Path.e_startDot st =? -1) eqn:Hsd; simpl;
         [by right|destruct (negb _); exact Hst]).
    + destruct (Path.e_end st =? -1); simpl;
        (destruct (negb (Path.e_startDot st =? -1)); exact Hst).
Qed.

(** An extension is empty or starts with a dot. *)
Lemma extname_dot_or_empty p :
  Path.extname p = "" \/ exists e, Path.extname p = String "." e.
Proof.
  unfold Path.extname, Path.extname_chars.
  set (cs := list_ascii_of_string p).
  destruct (Path.ext_none (Path.ext_scan cs)) eqn:Hnone; [by left|right].
  destruct (ext_scan_found cs Hnone) as (Hsd & Hen).
  destruct (extname_loop_dot cs (Path.indexed_desc cs) Path.ext_init
              (indexed_desc_lookup cs) (or_introl eq_refl)) as [Hbad|Hdot].
  { fold (Path.ext_scan cs) in Hbad. lia. }
  fold (Path.ext_scan cs) in Hdot.
  unfold Js.slice_chars.
  rewrite (drop_S _ _ _ Hdot).
  destruct (Z.to_nat (Path.e_end (Path.ext_scan cs) - Path.e_startDot (Path.ext_scan cs)))
    as [|n] eqn:Hn; [lia|].
  simpl. by eexists.
Qed.

(** ** Transfers and listings *)

Lemma concat_imap_singleton {A B} (f : nat -> A -> list B) (g : nat -> A -> B)
    (l : list A) :
  (forall i x, f i x = [g i x]) -> concat (imap f l) = imap g l.
Proof.
  revert f g. induction l as [|x l IH]; intros f g Hfg; [reflexivity|].
  rewrite !imap_cons. simpl. rewrite Hfg. simpl. f_equal.
  apply IH. intros i y. apply Hfg.
Qed.

(** X5: for a readable file, upload-file sends one put-object request whose
    key is [--key] when it is given and not empty, else the base name of
    the file, and whose content type always comes from the local path. *)
Theorem uploadFile_request w argv f content :
  argv_file argv = Some f -> fs_readFile w f = Some content ->
  api_calls (trace (uploadFile w argv)) =
    [(argv_region argv,
      PutObjectCommand (argv_bucket argv)
        (Js.or_else (argv_key argv) (Path.basename f)) content (getContentType f))].
Proof.
  intros Hf Hr. unfold uploadFile. rewrite Hf. run_handler. rewrite Hr.
  destruct (argv_key argv) as [k|]; simpl.
  - destruct (String.eqb k ""); simpl; destruct (s3_send w _ _); reflexivity.
  - destruct (s3_send w _ _); reflexivity.
Qed.

Lemma uploadFile_request_witness :
  let w := mkWorld (fun _ _ => inr (mkResponse None None None None))
             (fun f => if String.eqb f "site/index.HTML" then Some "<html>" else None)
             (fun _ => true) in
  let argv := mkArgv "us-east-1" ".env" None (Some "B") (Some "pages/home.bin")
                (Some "site/index.HTML") None None in
  argv_file argv = Some "site/index.HTML"
  /\ fs_readFile w "site/index.HTML" = Some "<html>"
  /\ api_calls (trace (uploadFile w argv))
     = [("us-east-1", PutObjectCommand (Some "B") "pages/home.bin" "<html>" "text/html")].
Proof.
  intros w argv. split; [reflexivity|]. split; [reflexivity|].
  exact (uploadFile_request w argv "site/index.HTML" "<html>" eq_refl eq_refl).
Defined.

(** X6: when the local file cannot be read, upload-file sends nothing,
    prints the read error and ends with code 1. *)
Theorem uploadFile_unreadable w argv f :
  argv_file argv = Some f -> fs_readFile w f = None ->
  api_calls (trace (uploadFile w argv)) = []
  /\ exit_code (uploadFile w argv) = 1
  /\ exists t err, trace (uploadFile w argv)
                 = t ++ [ReadFileSync f; ConsoleError "Error uploading file:" (Some err)].
Proof.
  intros Hf Hr. unfold uploadFile. rewrite Hf. run_handler. rewrite Hr.
  destruct (Js.truthy (argv_key argv)); simpl;
    (split; [reflexivity|split; [reflexivity|]]);
    eexists [_], _; reflexivity.
Qed.

Lemma uploadFile_unreadable_witness :
  let argv := mkArgv "us-east-1" ".env" None (Some "B") (Some "k") (Some "missing.txt")
                None None in
  argv_file argv = Some "missing.txt"
  /\ fs_readFile quiet_world "missing.txt" = None
  /\ api_calls (trace (uploadFile quiet_world argv)) = []
  /\ exit_code (uploadFile quiet_world argv) = 1.
Proof.
  intros argv. split; [reflexivity|]. split; [reflexivity|].
  pose proof (uploadFile_unreadable quiet_world argv "missing.txt" eq_refl eq_refl)
    as (H1 & H2 & _).
  exact (conj H1 H2).
Defined.

(** X9: download-file opens a local file for writing only after the service
    answered with a body. *)
Theorem downloadFile_opens_only_with_body w argv path :
  path ∈ opened_for_write (trace (downloadFile w argv)) ->
  exists resp body,
    s3_send w (argv_region argv) (GetObjectCommand (argv_bucket argv) (argv_key argv))
      = inr resp
    /\ Body resp = Some body.
Proof.
  unfold downloadFile. run_handler.
  destruct (s3_send w _ _) as [e|resp] eqn:Hs; simpl.
  - intros Hin. apply list_elem_of_In in Hin. destruct Hin.
  - destruct (Body resp) as [body|] eqn:Hb; simpl.
    + intros _. by exists resp, body.
    + intros Hin. apply list_elem_of_In in Hin. destruct Hin.
Qed.

(** X10: when the body fails midway or the destination cannot be written,
    download-file has opened the destination, completes no transfer,
    prints the error and ends with code 1. *)
Theorem downloadFile_transfer_failure w argv resp body k :
  s3_send w (argv_region argv) (GetObjectCommand (argv_bucket argv) (argv_key argv))
    = inr resp ->
  Body resp = Some body -> argv_key argv = Some k ->
  stream_fails body = true
  \/ fs_writable w (Js.or_else (argv_output argv) (Path.basename k)) = false ->
  exit_code (downloadFile w argv) = 1
  /\ opened_for_write (trace (downloadFile w argv))
     = [Js.or_else (argv_output argv) (Path.basename k)]
  /\ Forall (fun e => ~ is_pipeline_done e) (trace (downloadFile w argv))
  /\ exists t err, trace (downloadFile w argv)
                   = t ++ [ConsoleError "Error downloading file:" (Some err)].
Proof.
  intros Hs Hb Hk Hfail. unfold downloadFile. run_handler.
  rewrite Hs. simpl. rewrite Hb, Hk. simpl.
  destruct (argv_output argv) as [o|]; simpl in *;
    [destruct (String.eqb o "") eqn:Ho; simpl in *|];
    (destruct Hfail as [Hsf|Hw];
     [rewrite Hsf|destruct (stream_fails body); [|rewrite Hw]]);
    simpl;
    (split; [reflexivity|split; [reflexivity|split]]);
    try (repeat (apply Forall_cons_2; [intros (? & ? & ?); discriminate|]);
         apply Forall_nil_2);
    eexists [_; _; _], _; reflexivity.
Qed.

Lemma downloadFile_opens_only_with_body_witness :
  let resp := mkResponse None None None (Some (mkStream "DATA" false)) in
  let w := mkWorld (fun _ _ => inr resp) (fun _ => None) (fun _ => true) in
  let argv := mkArgv "us-east-1" ".env" None (Some "B") (Some "a/b.txt") None None None in
  "b.txt" ∈ opened_for_write (trace (downloadFile w argv))
  /\ exists resp' body,
       s3_send w "us-east-1" (GetObjectCommand (Some "B") (Some "a/b.txt")) = inr resp'
       /\ Body resp' = Some body.
Proof.
  intros resp w argv.
  assert ("b.txt" ∈ opened_for_write (trace (downloadFile w argv))) as Hin.
  { apply list_elem_of_In. vm_compute. left. reflexivity. }
  split; [exact Hin|].
  exact (downloadFile_opens_only_with_body w argv "b.txt" Hin).
Defined.

Lemma downloadFile_transfer_failure_witness :
  let body := mkStream "PARTIAL" true in
  let resp := mkResponse None None None (Some body) in
  let w := mkWorld (fun _ _ => inr resp) (fun _ => None) (fun _ => true) in
  let argv := mkArgv "us-east-1" ".env" None (Some "B") (Some "a/b.txt") None
                (Some "out.bin") None in
  stream_fails body = true
  /\ exit_code (downloadFile w argv) = 1
  /\ opened_for_write (trace (downloadFile w argv)) = ["out.bin"].
Proof.
  intros body resp w argv. split; [reflexivity|].
  pose proof (downloadFile_transfer_failure w argv resp body "a/b.txt"
                eq_refl eq_refl eq_refl (or_introl eq_refl)) as (H1 & H2 & _).
  exact (conj H1 H2).
Defined.

(** X11: a completed download writes the whole body to [--output] when it
    is given and not empty, else to the base name of the key, and ends with
    code 0. *)
Theorem downloadFile_success w argv resp body k :
  s3_send w (argv_region argv) (GetObjectCommand (argv_bucket argv) (argv_key argv))
    = inr resp ->
  Body resp = Some body -> argv_key argv = Some k ->
  stream_fails body = false ->
  fs_writable w (Js.or_else (argv_output argv) (Path.basename k)) = true ->
  downloadFile w argv =
    mkProcess
      [ConsoleLog ("Creating S3 client with region: " +:+ argv_region argv);
       Send (argv_region argv) (GetObjectCommand (argv_bucket argv) (Some k));
       CreateWriteStream (Js.or_else (argv_output argv) (Path.basename k));
       PipelineDone (Js.or_else (argv_output argv) (Path.basename k)) (stream_data body);
       ConsoleLog ("File downloaded successfully to '"
                   +:+ Js.or_else (argv_output argv) (Path.basename k) +:+ "'.")]
      0.
Proof.
  intros Hs Hb Hk Hsf Hw. unfold downloadFile. run_handler.
  rewrite Hs. simpl. rewrite Hb, Hk. simpl. rewrite Hsf.
  destruct (argv_output argv) as [o|]; simpl in *;
    [destruct (String.eqb o "") eqn:Ho; simpl in *|];
    rewrite Hw; reflexivity.
Qed.

Lemma downloadFile_success_witness :
  let body := mkStream "DATA" false in
  let resp := mkResponse None None None (Some body) in
  let w := mkWorld (fun _ _ => inr resp) (fun _ => None) (fun _ => true) in
  let argv := mkArgv "us-east-1" ".env" None (Some "B") (Some "a/b.txt") None
                (Some "out.bin") None in
  stream_fails body = false
  /\ downloadFile w argv =
       mkProcess
         [ConsoleLog "Creating S3 client with region: us-east-1";
          Send "us-east-1" (GetObjectCommand (Some "B") (Some "a/b.txt"));
          CreateWriteStream "out.bin";
          PipelineDone "out.bin" "DATA";
          ConsoleLog "File downloaded successfully to 'out.bin'."]
         0.
Proof.
  intros body resp w argv. split; [reflexivity|].
  exact (downloadFile_success w argv resp body "a/b.txt"
           eq_refl eq_refl eq_refl eq_refl eq_refl).
Defined.

(** X13: when the service lists nothing (no list at all, or an empty one),
    list-buckets and list-files end with code 0 and their last line says
    so. *)
Theorem listing_empty w argv resp :
  (s3_send w (argv_region argv) ListBucketsCommand = inr resp ->
   Buckets resp = None \/ Buckets resp = Some [] ->
   exit_code (listBuckets w argv) = 0
   /\ last (trace (listBuckets w argv)) = Some (ConsoleLog "No buckets found."))
  /\ (s3_send w (argv_region argv)
        (ListObjectsV2Command (argv_bucket argv) (argv_prefix argv)) = inr resp ->
      Contents resp = None \/ Contents resp = Some [] ->
      exit_code (listFiles w argv) = 0
      /\ last (trace (listFiles w argv)) = Some (ConsoleLog "No objects found.")).
Proof.
  split.
  - intros Hs Hb. unfold listBuckets. run_handler. rewrite Hs. simpl.
    destruct Hb as [-> | ->]; split; reflexivity.
  - intros Hs Hb. unfold listFiles. run_handler. rewrite Hs. simpl.
    destruct Hb as [-> | ->]; split; reflexivity.
Qed.

Lemma listing_empty_witness :
  let argv := mkArgv "us-east-1" ".env" None (Some "B") None None None None in
  exit_code (listFiles quiet_world argv) = 0
  /\ last (trace (listFiles quiet_world argv)) = Some (ConsoleLog "No objects found.").
Proof.
  intros argv.
  exact (proj2 (listing_empty quiet_world argv (mkResponse None None None None))
           eq_refl (or_introl eq_refl)).
Defined.

(** X14: when every object of the response is smaller than [2^49] bytes
    (the sizes whose unit index does not depend on the rounding of
    [Math.log]), list-files prints one line per object after the three
    leading events (client, request, heading), in the order of the response
    and numbered from 1; an object without size is shown as 0 Bytes. *)
Theorem listFiles_lines w argv resp objs :
  s3_send w (argv_region argv)
    (ListObjectsV2Command (argv_bucket argv) (argv_prefix argv)) = inr resp ->
  Contents resp = Some objs -> objs <> [] ->
  Forall (fun o => 0 <= default 0 (object_Size o) < 2 ^ 49) objs ->
  exit_code (listFiles w argv) = 0
  /\ length (trace (listFiles w argv)) = (3 + length objs)%nat
  /\ forall i o, objs !! i = Some o ->
       trace (listFiles w argv) !! (3 + i)%nat = Some (object_line i o).
Proof.
  intros Hs Hc Hne _. unfold listFiles. run_handler. rewrite Hs. simpl. rewrite Hc.
  destruct objs as [|o0 objs]; [done|]. simpl.
  split; [reflexivity|].
  rewrite (concat_imap_singleton _ (fun i o => object_line (S i) o) objs)
    by (intros; reflexivity).
  split.
  - by rewrite length_imap.
  - intros [|i] o Ho; simpl in *.
    + by injection Ho as <-.
    + rewrite list_lookup_imap, Ho. reflexivity.
Qed.

Lemma listFiles_lines_witness :
  let objs := [mkObject (Some "a.txt") (Some 1536) (Some "today");
               mkObject (Some "b.bin") None None] in
  let resp := mkResponse None None (Some objs) None in
  let w := mkWorld (fun _ _ => inr resp) (fun _ => None) (fun _ => true) in
  let argv := mkArgv "us-east-1" ".env" None (Some "B") None None None None in
  objs <> []
  /\ Forall (fun o => 0 <= default 0 (object_Size o) < 2 ^ 49) objs
  /\ trace (listFiles w argv) !! 3%nat
     = Some (ConsoleLog "1. a.txt (Size: 1.5 KB, Last Modified: today)")
  /\ trace (listFiles w argv) !! 4%nat
     = Some (ConsoleLog "2. b.bin (Size: 0 Bytes, Last Modified: undefined)").
Proof.
  intros objs resp w argv.
  assert (objs <> []) as Hne by discriminate.
  assert (Forall (fun o => 0 <= default 0 (object_Size o) < 2 ^ 49) objs) as Hsz.
  { repeat constructor; discriminate. }
  split; [exact Hne|]. split; [exact Hsz|]. split.
  - exact (proj2 (proj2 (listFiles_lines w argv resp objs eq_refl eq_refl Hne Hsz))
             0%nat (mkObject (Some "a.txt") (Some 1536) (Some "today")) eq_refl).
  - exact (proj2 (proj2 (listFiles_lines w argv resp objs eq_refl eq_refl Hne Hsz))
             1%nat (mkObject (Some "b.bin") None None) eq_refl).
Defined.

(** X7: without [--key], uploading [dir/name] stores the object under the
    key [name]. *)
Theorem uploadFile_key_strips_directories w argv dir name content :
  argv_key argv = None ->
  argv_file argv = Some (dir +:+ "/" +:+ name) ->
  name <> "" -> slash_free name ->
  fs_readFile w (dir +:+ "/" +:+ name) = Some content ->
  api_calls (trace (uploadFile w argv)) =
    [(argv_region argv,
      PutObjectCommand (argv_bucket argv) name content
        (getContentType (dir +:+ "/" +:+ name)))].
Proof.
  intros Hkey Hfile Hne Hname Hread.
  unfold uploadFile. rewrite Hkey, Hfile. run_handler. rewrite Hread. simpl.
  assert (Path.basename (dir +:+ "/" +:+ name) = name) as ->.
  { unfold Path.basename.
    rewrite basename_chars_spec, !list_ascii_of_string_app. simpl.
    rewrite last_component_joined;
      [apply string_of_list_ascii_of_string|by destruct name|exact Hname]. }
  destruct (s3_send w _ _); reflexivity.
Qed.

Lemma uploadFile_key_strips_directories_witness :
  let file := "photos/2024" +:+ "/" +:+ "cat.JPG" in
  let w := mkWorld (fun _ _ => inr (mkResponse None None None None))
             (fun f => if String.eqb f file then Some "JPEG" else None)
             (fun _ => true) in
  let argv := mkArgv "us-east-1" ".env" None (Some "B") None (Some file) None None in
  "cat.JPG" <> "" /\ slash_free "cat.JPG"
  /\ api_calls (trace (uploadFile w argv))
     = [("us-east-1", PutObjectCommand (Some "B") "cat.JPG" "JPEG" "image/jpeg")].
Proof.
  intros file w argv.
  assert ("cat.JPG" <> "") as Hne by discriminate.
  assert (slash_free "cat.JPG") as Hsf by (repeat constructor).
  split; [exact Hne|]. split; [exact Hsf|].
  exact (uploadFile_key_strips_directories w argv "photos/2024" "cat.JPG" "JPEG"
           eq_refl eq_refl Hne Hsf eq_refl).
Defined.

(** X8: without [--key], the key of the request that upload-file sends holds
    no separator. *)
Theorem uploadFile_derived_key_slash_free w argv r b k body ct :
  argv_key argv = None ->
  (r, PutObjectCommand b k body ct) ∈ api_calls (trace (uploadFile w argv)) ->
  slash_free k.
Proof.
  intros Hkey. unfold uploadFile. rewrite Hkey. run_handler.
  destruct (argv_file argv) as [f|]; simpl;
    [|intros Hin; apply list_elem_of_In in Hin; destruct Hin].
  destruct (fs_readFile w f) as [content|]; simpl;
    [|intros Hin; apply list_elem_of_In in Hin; destruct Hin].
  assert ((r, PutObjectCommand b k body ct)
            ∈ [(argv_region argv,
                PutObjectCommand (argv_bucket argv) (Path.basename f) content
                  (getContentType f))] -> slash_free k) as Hgo.
  { intros Hin. apply list_elem_of_singleton in Hin. injection Hin as _ _ -> _ _.
    apply basename_slash_free. }
  destruct (s3_send w _ _); simpl; exact Hgo.
Qed.

Lemma uploadFile_derived_key_slash_free_witness :
  let w := mkWorld (fun _ _ => inr (mkResponse None None None None))
             (fun _ => Some "DATA") (fun _ => true) in
  let argv := mkArgv "us-east-1" ".env" None (Some "B") None (Some "a/b/c.txt") None None in
  argv_key argv = None
  /\ ("us-east-1", PutObjectCommand (Some "B") "c.txt" "DATA" "text/plain")
       ∈ api_calls (trace (uploadFile w argv))
  /\ slash_free "c.txt".
Proof.
  intros w argv.
  assert (("us-east-1", PutObjectCommand (Some "B") "c.txt" "DATA" "text/plain")
            ∈ api_calls (trace (uploadFile w argv))) as Hin.
  { apply list_elem_of_In. vm_compute. left. reflexivity. }
  split; [reflexivity|]. split; [exact Hin|].
  exact (uploadFile_derived_key_slash_free w argv _ _ _ _ _ eq_refl Hin).
Defined.

(** X12: without [--output], a file that download-file opens for writing
    has no separator in its path, so it lies in the working directory; for
    a key [dir/name] it is [name]. *)
Theorem downloadFile_derived_output w argv path :
  argv_output argv = None ->
  path ∈ opened_for_write (trace (downloadFile w argv)) ->
  slash_free path
  /\ forall dir name,
       argv_key argv = Some (dir +:+ "/" +:+ name) -> name <> "" -> slash_free name ->
       path = name.
Proof.
  intros Hout. unfold downloadFile. rewrite Hout. run_handler.
  destruct (s3_send w _ _) as [e|resp]; simpl;
    [intros Hin; apply list_elem_of_In in Hin; destruct Hin|].
  destruct (Body resp) as [body|]; simpl;
    [|intros Hin; apply list_elem_of_In in Hin; destruct Hin].
  destruct (argv_key argv) as [k|]; simpl;
    [|intros Hin; apply list_elem_of_In in Hin; destruct Hin].
  assert (path ∈ [Path.basename k] ->
          slash_free path
          /\ forall dir name,
               Some k = Some (dir +:+ "/" +:+ name) -> name <> "" -> slash_free name ->
               path = name) as Hgo.
  { intros Hin. apply list_elem_of_singleton in Hin. subst path. split.
    - apply basename_slash_free.
    - intros dir name [= ->] Hne Hname. by apply basename_of_joined. }
  destruct (stream_fails body); simpl; [exact Hgo|].
  destruct (fs_writable w _); simpl; exact Hgo.
Qed.

Lemma downloadFile_derived_output_witness :
  let resp := mkResponse None None None (Some (mkStream "DATA" false)) in
  let w := mkWorld (fun _ _ => inr resp) (fun _ => None) (fun _ => true) in
  let argv := mkArgv "us-east-1" ".env" None (Some "B")
                (Some ("logs/2024" +:+ "/" +:+ "app.log")) None None None in
  argv_output argv = None
  /\ "app.log" ∈ opened_for_write (trace (downloadFile w argv))
  /\ slash_free "app.log".
Proof.
  intros resp w argv.
  assert ("app.log" ∈ opened_for_write (trace (downloadFile w argv))) as Hin.
  { apply list_elem_of_In. vm_compute. left. reflexivity. }
  split; [reflexivity|]. split; [exact Hin|].
  exact (proj1 (downloadFile_derived_output w argv "app.log" eq_refl Hin)).
Defined.

(** ** Environment files, once more *)

Lemma includes_app_here pre x rest : Js.includes (pre ++ x :: rest) x = true.
Proof.
  unfold Js.includes. rewrite existsb_app. simpl. rewrite String.eqb_refl.
  by rewrite orb_true_r.
Qed.

Lemma includes_false l x : x ∉ l -> Js.includes l x = false.
Proof.
  intros Hx. unfold Js.includes. induction l as [|y l IH]; [reflexivity|].
  simpl. apply not_elem_of_cons in Hx as [Hne Hx].
  rewrite IH by exact Hx. destruct (String.eqb_spec y x); [congruence|reflexivity].
Qed.

Lemma indexOf_from_app pre x rest i :
  x ∉ pre ->
  Js.indexOf_from i (pre ++ x :: rest) x = i + Z.of_nat (length pre).
Proof.
  revert i. induction pre as [|y pre IH]; intros i Hx; simpl.
  - rewrite String.eqb_refl. lia.
  - apply not_elem_of_cons in Hx as [Hne Hx].
    destruct (String.eqb_spec y x); [congruence|]. rewrite IH by exact Hx. lia.
Qed.

Lemma index_app_r {A} (l1 l2 : list A) n :
  Js.index (l1 ++ l2) (Z.of_nat (length l1) + Z.of_nat n) = l2 !! n.
Proof.
  unfold Js.index. destruct (Z.ltb_spec (Z.of_nat (length l1) + Z.of_nat n) 0); [lia|].
  rewrite lookup_app_r by lia. f_equal. lia.
Qed.

(** X15: loading the environment files never changes a variable that the
    process environment already holds. *)
Theorem load_environment_keeps_env files process_argv env k v :
  env !! k = Some v -> (load_environment files process_argv env).1 !! k = Some v.
Proof.
  intros Hk. unfold load_environment.
  assert (Dotenv.config files Dotenv.no_options env !! k = Some v) as H1.
  { rewrite dotenv_config_lookup by reflexivity. by rewrite Hk. }
  destruct (Js.includes _ _); [|exact H1].
  destruct (_ && _); [|exact H1]. simpl.
  rewrite dotenv_config_lookup by reflexivity. by rewrite H1.
Qed.

Lemma load_environment_keeps_env_witness :
  let files : gmap string (gmap string string) :=
    {[ ".env" := {[ "AWS_REGION" := "eu-west-1" ]};
       "prod.env" := {[ "AWS_REGION" := "us-west-2" ]} ]} in
  let env : gmap string string := {[ "AWS_REGION" := "ap-south-1" ]} in
  env !! "AWS_REGION" = Some "ap-south-1"
  /\ (load_environment files ["node"; "cli"; "--env-file"; "prod.env"] env).1
       !! "AWS_REGION" = Some "ap-south-1".
Proof.
  intros files env. split; [reflexivity|].
  exact (load_environment_keeps_env files ["node"; "cli"; "--env-file"; "prod.env"] env
           "AWS_REGION" "ap-south-1" eq_refl).
Defined.

(** X16: only the first [--env-file] token counts: the file named after it
    is loaded on top of [.env], whatever follows in the arguments. *)
Theorem load_environment_first_occurrence files pre p rest env :
  "--env-file" ∉ pre ->
  load_environment files (pre ++ "--env-file" :: p :: rest) env
  = (Dotenv.config files (Dotenv.mkOptions (Some p) None)
       (Dotenv.config files Dotenv.no_options env),
     [ConsoleLog ("Loaded environment from: " +:+ p)]).
Proof.
  intros Hpre. unfold load_environment.
  rewrite includes_app_here. unfold Js.indexOf.
  rewrite indexOf_from_app by exact Hpre.
  rewrite length_app. simpl length.
  destruct (Z.gtb_spec (0 + Z.of_nat (length pre)) (-1)); [|lia].
  destruct (Z.ltb_spec (0 + Z.of_nat (length pre))
              (Z.of_nat (length pre + S (S (length rest))) - 1)); [|lia].
  simpl.
  replace (0 + Z.of_nat (length pre) + 1)
    with (Z.of_nat (length pre) + Z.of_nat 1) by lia.
  rewrite index_app_r. reflexivity.
Qed.

Lemma load_environment_first_occurrence_witness :
  let files : gmap string (gmap string string) :=
    {[ "a.env" := {[ "K" := "a" ]}; "b.env" := {[ "K" := "b" ]} ]} in
  ("--env-file" ∉ ["node"; "cli"])
  /\ (load_environment files
        ["node"; "cli"; "--env-file"; "a.env"; "--env-file"; "b.env"] ∅).1 !! "K"
     = Some "a".
Proof.
  intros files.
  assert ("--env-file" ∉ ["node"; "cli"]) as Hpre.
  { intros Hin. apply list_elem_of_In in Hin. simpl in Hin.
    destruct Hin as [Hin|[Hin|[]]]; discriminate. }
  split; [exact Hpre|].
  rewrite (load_environment_first_occurrence files ["node"; "cli"] "a.env"
             ["--env-file"; "b.env"] ∅ Hpre).
  reflexivity.
Defined.

(** X17: without a [--env-file] token (the [--env-file=path] spelling is a
    different token), or with that token last, only [.env] is loaded and
    nothing is logged. *)
Theorem load_environment_without_value files pre env :
  "--env-file" ∉ pre ->
  load_environment files pre env = (Dotenv.config files Dotenv.no_options env, [])
  /\ load_environment files (pre ++ ["--env-file"]) env
     = (Dotenv.config files Dotenv.no_options env, []).
Proof.
  intros Hpre. unfold load_environment. split.
  - by rewrite includes_false.
  - rewrite includes_app_here. unfold Js.indexOf.
    rewrite indexOf_from_app by exact Hpre. rewrite length_app. simpl length.
    destruct (Z.ltb_spec (0 + Z.of_nat (length pre))
                (Z.of_nat (length pre + 1) - 1)); [lia|].
    by rewrite andb_false_r.
Qed.

Lemma load_environment_without_value_witness :
  let files : gmap string (gmap string string) :=
    {[ "prod.env" := {[ "K" := "prod" ]} ]} in
  ("--env-file" ∉ ["node"; "cli"; "--env-file=prod.env"; "list-buckets"])
  /\ load_environment files ["node"; "cli"; "--env-file=prod.env"; "list-buckets"] ∅
     = (∅, []).
Proof.
  intros files.
  assert ("--env-file" ∉ ["node"; "cli"; "--env-file=prod.env"; "list-buckets"]) as Hpre.
  { intros Hin. apply list_elem_of_In in Hin. simpl in Hin.
    destruct Hin as [Hin|[Hin|[Hin|[Hin|[]]]]]; discriminate. }
  split; [exact Hpre|].
  rewrite (proj1 (load_environment_without_value files _ ∅ Hpre)). reflexivity.
Defined.

(** ** Formatting, once more *)

Lemma floor_log_unique k b i :
  2 <= k -> 0 <= i -> k ^ i <= b < k ^ (i + 1) -> floor_log k b = i.
Proof.
  intros Hk Hi [Hlo Hhi].
  assert (1 <= b) as Hb.
  { pose proof (Z.pow_pos_nonneg k i ltac:(lia) Hi). lia. }
  destruct (floor_log_spec k Hk b Hb) as (Hj & Hjlo & Hjhi).
  destruct (Z.lt_trichotomy (floor_log k b) i) as [Hlt|[Heq|Hgt]]; [|exact Heq|].
  - assert (k ^ (floor_log k b + 1) <= k ^ i) by (apply Z.pow_le_mono_r; lia). lia.
  - assert (k ^ (i + 1) <= k ^ floor_log k b) by (apply Z.pow_le_mono_r; lia). lia.
Qed.

Lemma toFixed_units_whole m den dm :
  0 < den -> 0 <= dm -> Js.toFixed_units (m * den) den dm = m * 10 ^ dm.
Proof.
  intros Hden Hdm. unfold Js.toFixed_units.
  symmetry. apply (Z.div_unique_pos _ _ _ den); lia.
Qed.

Lemma fixed_chars_whole m : 0 <= m -> Js.fixed_chars (m * 10 ^ 2) 2 = Js.int_chars m.
Proof.
  intros Hm. unfold Js.fixed_chars.
  rewrite Z.div_mul by discriminate. rewrite Z.mod_mul by discriminate. reflexivity.
Qed.

(** X18: a count that is a whole multiple [m * 1024^i] of a unit, with
    [1 <= m < 1024], is printed as [m] and the unit, without decimals. *)
Theorem formatBytes_whole_multiple m i :
  1 <= m < 1024 -> 0 <= i < 9 ->
  exists u,
    Js.index sizes i = Some u
    /\ formatBytes (m * 1024 ^ i) default_decimals = Js.int_to_string m +:+ " " +:+ u.
Proof.
  intros Hm Hi.
  destruct (index_sizes_Some i Hi) as (u & Hu & _). exists u. split; [exact Hu|].
  assert (0 < 1024 ^ i) as Hpow by (apply Z.pow_pos_nonneg; lia).
  assert (floor_log 1024 (m * 1024 ^ i) = i) as Hfl.
  { apply floor_log_unique; [lia|lia|].
    replace (i + 1) with (Z.succ i) by lia. rewrite Z.pow_succ_r by lia. nia. }
  rewrite formatBytes_positive by nia. rewrite Hfl, Hu.
  rewrite toFixed_units_whole by lia.
  unfold Js.fixed_to_string, Js.int_to_string.
  by rewrite fixed_chars_whole by lia.
Qed.

Lemma formatBytes_whole_multiple_witness :
  1 <= 512 < 1024 /\ 0 <= 3 < 9
  /\ formatBytes (512 * 1024 ^ 3) default_decimals = "512 GB".
Proof.
  split; [lia|]. split; [lia|].
  destruct (formatBytes_whole_multiple 512 3 ltac:(lia) ltac:(lia)) as (u & Hu & ->).
  injection Hu as <-. reflexivity.
Defined.

Lemma contentTypes_entry_shape ext mime :
  (ext, mime) ∈ contentTypes_entries ->
  exists e, list_ascii_of_string ext = "."%char :: e /\ e <> []
            /\ Forall (fun c => plain_char c = true) e.
Proof.
  intros Hin. apply list_elem_of_In in Hin. simpl in Hin.
  repeat (destruct Hin as [[= <- <-]|Hin];
          [eexists; split; [reflexivity|split; [discriminate|repeat constructor]]|]).
  destruct Hin.
Qed.

(** X20: a path made of anything, one code unit other than a separator,
    and an extension of the table has that extension and gets its MIME
    type, whatever dots and directories the path holds before. *)
Theorem getContentType_by_suffix stem d ext mime :
  (ext, mime) ∈ contentTypes_entries -> d <> "/"%char ->
  Path.extname (stem +:+ String d ext) = ext
  /\ getContentType (stem +:+ String d ext) = mime.
Proof.
  intros Hin Hd.
  assert (Path.extname (stem +:+ String d ext) = ext) as Hext.
  { destruct (contentTypes_entry_shape ext mime Hin) as (e & He & Hne & Hplain).
    unfold Path.extname. rewrite list_ascii_of_string_app. simpl. rewrite He.
    rewrite extname_chars_suffix; [|by apply Ascii.eqb_neq|exact Hne|exact Hplain].
    rewrite <- He. apply string_of_list_ascii_of_string. }
  split; [exact Hext|].
  unfold getContentType. rewrite Hext.
  destruct (contentTypes_entry ext mime Hin) as [-> Hm]. exact Hm.
Qed.

Lemma getContentType_by_suffix_witness :
  (".svg", "image/svg+xml") ∈ contentTypes_entries /\ "o"%char <> "/"%char
  /\ getContentType ("assets/img.v2/log" +:+ String "o" ".svg") = "image/svg+xml".
Proof.
  assert ((".svg", "image/svg+xml") ∈ contentTypes_entries) as Hin.
  { apply list_elem_of_In. simpl. tauto. }
  assert ("o"%char <> "/"%char) as Hd by discriminate.
  split; [exact Hin|]. split; [exact Hd|].
  exact (proj2 (getContentType_by_suffix "assets/img.v2/log" "o" ".svg" "image/svg+xml"
                  Hin Hd)).
Defined.

(** X19: the content type is never empty: it is the generic binary type or
    the table entry of the lowercased extension. *)
Theorem getContentType_range p :
  getContentType p <> ""
  /\ (getContentType p = "application/octet-stream"
      \/ (Js.toLowerCase (Path.extname p), getContentType p) ∈ contentTypes_entries).
Proof.
  unfold getContentType.
  destruct (contentTypes !! Js.toLowerCase (Path.extname p)) as [mime|] eqn:Hl; simpl.
  - apply elem_of_list_to_map_2 in Hl.
    destruct (contentTypes_entry _ _ Hl) as [_ Hm].
    assert (mime <> "") as Hne.
    { apply list_elem_of_In in Hl. simpl in Hl.
      repeat (destruct Hl as [[= _ <-]|Hl]; [discriminate|]). destruct Hl. }
    destruct (String.eqb_spec mime ""); [done|]. split; [exact Hne|by right].
  - split; [discriminate|by left].
Qed.
